(** * Task dispatch and expression evaluation (main.go)

    A shallow embedding of the calculator service: the two-stack expression
    evaluator [evaluateExpression], the task registry ([tasks], [nextTaskID]),
    the dispatch channel [taskChannel], the worker loop of [startAgents] and
    the handlers [addTaskHandler] and [getTaskResultHandler].

    Conventions.
    - A Go [string] is read by [for _, char := range expression] as a sequence
      of runes; an expression is modelled as that sequence, [list rune], a rune
      being its code point in [Z].  [runes] gives the sequence of an ASCII
      literal.
    - [float64] is Rocq's primitive binary64 [float]; [+ - * /] are the IEEE
      operations of [PrimFloat].
    - A Go slice used as a stack is a list whose head is the top of the stack
      (the last element of the slice); [operandStack[0]] is therefore the last
      element of the list.
    - [time.Sleep] only delays the result and is not modelled.
    - A loop that may fail to terminate takes a bound [fuel] on the number of
      its iterations and yields [None] when the bound is exhausted.
    - Goroutines interleave statement by statement; each line of a handler
      or of an agent is one atomic step.  Lines 49 and 52 are read-modify-
      writes of [nextTaskID] and [tasks] without synchronisation: taking
      each as one step is exact for the runs in which lines 48 to 52 of
      different handlers do not overlap ([runExclusive]).  A run in which
      two handlers are inside line 49 or inside line 52 at once, where an
      increment or an append can be lost, is not among the runs of [run];
      what is stated about positions in [tasks] beyond the claims is
      therefore stated for [runExclusive].
    - The Mutex of a Task is locked by the agent that holds the Task and by
      nobody else (lines 102 to 104), so it never blocks; it is not modelled.
    - [int] is the 64-bit integer of the usual platforms.

    The development follows main.go.  The variant of the program with the
    two further routes /tasks/execute and /tasks/result is not covered. *)

From Stdlib Require Import ZArith List String Ascii Bool Floats Lia.
From stdpp Require Import base list relations.
Import ListNotations.
Open Scope Z_scope.

(* ================================================================== *)
(** ** Runes and number parsing *)

Definition rune := Z.

Definition runes (s : string) : list rune :=
  map (fun c => Z.of_nat (nat_of_ascii c)) (list_ascii_of_string s).

Definition r_space  : rune := 32.
Definition r_lparen : rune := 40.
Definition r_rparen : rune := 41.
Definition r_star   : rune := 42.
Definition r_plus   : rune := 43.
Definition r_minus  : rune := 45.
Definition r_slash  : rune := 47.

Definition isDigit (c : rune) : bool := (48 <=? c) && (c <=? 57).

(** Whether one of the characters the scanning [switch] treats specially. *)
Definition isSpecial (c : rune) : bool :=
  (c =? r_lparen) || (c =? r_rparen) || (c =? r_plus) || (c =? r_minus)
  || (c =? r_star) || (c =? r_slash).

Inductive parseError := ErrSyntax.

(** [strconv.ParseFloat(string(char), 64)] on a string of one rune: a decimal
    digit is the only one-rune string that denotes a number; on any other
    string the function returns 0 and a syntax error. *)
Definition ParseFloat (char : rune) : float * option parseError :=
  if isDigit char
  then (PrimFloat.of_uint63 (Uint63.of_Z (char - 48)), None)
  else (0%float, Some ErrSyntax).

(* ================================================================== *)
(** ** The evaluator *)

Record stacks := mkStacks {
  operandStack  : list float;
  operatorStack : list rune
}.

Definition emptyStacks : stacks := mkStacks [] [].

Definition pushOperand (v : float) (st : stacks) : stacks :=
  mkStacks (v :: operandStack st) (operatorStack st).

Definition pushOperator (c : rune) (st : stacks) : stacks :=
  mkStacks (operandStack st) (c :: operatorStack st).

(** The [switch op] of [performOperation]; [result] keeps its zero value when
    [op] is none of the four operators (an opening parenthesis). *)
Definition applyOp (op : rune) (a b : float) : float :=
  if op =? r_plus then PrimFloat.add a b
  else if op =? r_minus then PrimFloat.sub a b
  else if op =? r_star then PrimFloat.mul a b
  else if op =? r_slash then PrimFloat.div a b
  else 0%float.

(** The closure [performOperation]: it returns at once, leaving both stacks as
    they are, when fewer than two operands or no operator is available. *)
Definition performOperation (st : stacks) : stacks :=
  match operandStack st, operatorStack st with
  | b :: a :: rest, op :: ops => mkStacks (applyOp op a b :: rest) ops
  | _, _ => st
  end.

(** [for len(operatorStack) > 0 && cond(top) { performOperation() }] *)
Fixpoint whileTop (cond : rune -> bool) (fuel : nat) (st : stacks)
  : option stacks :=
  match operatorStack st with
  | [] => Some st
  | top :: _ =>
      if cond top then
        match fuel with
        | O => None
        | S fuel' => whileTop cond fuel' (performOperation st)
        end
      else Some st
  end.

Definition notLParen (c : rune) : bool := negb (c =? r_lparen).
Definition isArith (c : rune) : bool :=
  (c =? r_plus) || (c =? r_minus) || (c =? r_star) || (c =? r_slash).
Definition isMulDiv (c : rune) : bool := (c =? r_star) || (c =? r_slash).
Definition anyTop (_ : rune) : bool := true.

(** The closing-parenthesis case after its loop: drop a [(] on top. *)
Definition dropLParen (st : stacks) : stacks :=
  match operatorStack st with
  | top :: ops => if top =? r_lparen then mkStacks (operandStack st) ops else st
  | [] => st
  end.

(** One iteration of the scanning loop, the [switch char]. *)
Definition scanChar (fuel : nat) (char : rune) (st : stacks) : option stacks :=
  if char =? r_lparen then Some (pushOperator char st)
  else if char =? r_rparen then
    option_map dropLParen (whileTop notLParen fuel st)
  else if (char =? r_plus) || (char =? r_minus) then
    option_map (pushOperator char) (whileTop isArith fuel st)
  else if (char =? r_star) || (char =? r_slash) then
    option_map (pushOperator char) (whileTop isMulDiv fuel st)
  else Some (pushOperand (fst (ParseFloat char)) st).

Fixpoint scan (fuel : nat) (expression : list rune) (st : stacks)
  : option stacks :=
  match expression with
  | [] => Some st
  | char :: rest =>
      match scanChar fuel char st with
      | Some st' => scan fuel rest st'
      | None => None
      end
  end.

(** [strings.ReplaceAll(expression, " ", "")] *)
Definition removeSpaces (expression : list rune) : list rune :=
  List.filter (fun c => negb (c =? r_space)) expression.

(** How a call ends when it ends: with a number, or with the run-time panic
    "index out of range" of [operandStack[0]] on an empty slice. *)
Inductive outcome :=
| Returned (v : float)
| PanicIndexOutOfRange.

Definition bottom (l : list float) : outcome :=
  match rev l with
  | v :: _ => Returned v
  | [] => PanicIndexOutOfRange
  end.

Definition evaluateExpression (fuel : nat) (expression : list rune)
  : option outcome :=
  match scan fuel (removeSpaces expression) emptyStacks with
  | None => None
  | Some st =>
      match whileTop anyTop fuel st with
      | None => None
      | Some st' => Some (bottom (operandStack st'))
      end
  end.


(* ================================================================== *)
(** ** Well-formed expressions and their value

    The grammar of the expressions the evaluator is meant for, one digit per
    numeral, with the usual reading: [*] and [/] bind tighter than [+] and
    [-], operators of one level associate to the left, and a parenthesised
    expression is a factor.  [value] is the reference semantics. *)

Inductive digit := D0 | D1 | D2 | D3 | D4 | D5 | D6 | D7 | D8 | D9.

Definition digitRune (d : digit) : rune :=
  match d with
  | D0 => 48 | D1 => 49 | D2 => 50 | D3 => 51 | D4 => 52
  | D5 => 53 | D6 => 54 | D7 => 55 | D8 => 56 | D9 => 57
  end.

Definition digitValue (d : digit) : float :=
  match d with
  | D0 => 0 | D1 => 1 | D2 => 2 | D3 => 3 | D4 => 4
  | D5 => 5 | D6 => 6 | D7 => 7 | D8 => 8 | D9 => 9
  end%float.

Inductive addop := Plus | Minus.
Inductive mulop := Times | Divide.

Definition addRune (o : addop) : rune :=
  match o with Plus => r_plus | Minus => r_minus end.
Definition mulRune (o : mulop) : rune :=
  match o with Times => r_star | Divide => r_slash end.

Definition applyAdd (o : addop) (a b : float) : float :=
  match o with Plus => PrimFloat.add a b | Minus => PrimFloat.sub a b end.
Definition applyMul (o : mulop) (a b : float) : float :=
  match o with Times => PrimFloat.mul a b | Divide => PrimFloat.div a b end.

Inductive expr :=
| ETerm (t : term)
| EAdd (e : expr) (o : addop) (t : term)
with term :=
| TFactor (f : factor)
| TMul (t : term) (o : mulop) (f : factor)
with factor :=
| FDigit (d : digit)
| FParen (e : expr).

Fixpoint render (e : expr) : list rune :=
  match e with
  | ETerm t => renderTerm t
  | EAdd e o t => render e ++ addRune o :: renderTerm t
  end
with renderTerm (t : term) : list rune :=
  match t with
  | TFactor f => renderFactor f
  | TMul t o f => renderTerm t ++ mulRune o :: renderFactor f
  end
with renderFactor (f : factor) : list rune :=
  match f with
  | FDigit d => [digitRune d]
  | FParen e => r_lparen :: render e ++ [r_rparen]
  end.

Fixpoint value (e : expr) : float :=
  match e with
  | ETerm t => valueTerm t
  | EAdd e o t => applyAdd o (value e) (valueTerm t)
  end
with valueTerm (t : term) : float :=
  match t with
  | TFactor f => valueFactor f
  | TMul t o f => applyMul o (valueTerm t) (valueFactor f)
  end
with valueFactor (f : factor) : float :=
  match f with
  | FDigit d => digitValue d
  | FParen e => value e
  end.

(** *** Expressions without parentheses, as token sequences

    A digit followed by operator-digit pairs.  [precedenceValue] reads such a
    sequence with the standard precedence: the products and quotients of
    each run of [*] and [/] are formed first, left to right, and the runs
    are then added and subtracted left to right. *)

Inductive binop := OpAdd (o : addop) | OpMul (o : mulop).

Definition binopRune (o : binop) : rune :=
  match o with OpAdd o => addRune o | OpMul o => mulRune o end.

Definition renderFlat (d0 : digit) (l : list (binop * digit)) : list rune :=
  digitRune d0 :: flat_map (fun od => [binopRune (fst od); digitRune (snd od)]) l.

(** The sum so far with the additive operator that follows it, if any. *)
Definition closeSum (acc : option (float * addop)) (cur : float) : float :=
  match acc with
  | None => cur
  | Some (s, o) => applyAdd o s cur
  end.

Fixpoint precedenceFold (acc : option (float * addop)) (cur : float)
    (l : list (binop * digit)) : float :=
  match l with
  | [] => closeSum acc cur
  | (OpMul o, d) :: l' => precedenceFold acc (applyMul o cur (digitValue d)) l'
  | (OpAdd o, d) :: l' => precedenceFold (Some (closeSum acc cur, o)) (digitValue d) l'
  end.

Definition precedenceValue (d0 : digit) (l : list (binop * digit)) : float :=
  precedenceFold None (digitValue d0) l.

(** The same sequence as an expression of the grammar. *)
Definition closeExpr (acc : option (expr * addop)) (cur : term) : expr :=
  match acc with
  | None => ETerm cur
  | Some (e, o) => EAdd e o cur
  end.

Fixpoint flatExpr (acc : option (expr * addop)) (cur : term)
    (l : list (binop * digit)) : expr :=
  match l with
  | [] => closeExpr acc cur
  | (OpMul o, d) :: l' => flatExpr acc (TMul cur o (FDigit d)) l'
  | (OpAdd o, d) :: l' => flatExpr (Some (closeExpr acc cur, o)) (TFactor (FDigit d)) l'
  end.

(** *** Chains of operators of one level *)

Definition mulChain (f0 : factor) (l : list (mulop * factor)) : term :=
  fold_left (fun t x => TMul t (fst x) (snd x)) l (TFactor f0).

Definition addChain (f0 : factor) (l : list (addop * factor)) : expr :=
  fold_left (fun e x => EAdd e (fst x) (TFactor (snd x))) l (ETerm (TFactor f0)).

Definition leftToRightMul (f0 : factor) (l : list (mulop * factor)) : float :=
  fold_left (fun acc x => applyMul (fst x) acc (valueFactor (snd x))) l (valueFactor f0).

Definition leftToRightAdd (f0 : factor) (l : list (addop * factor)) : float :=
  fold_left (fun acc x => applyAdd (fst x) acc (valueFactor (snd x))) l (valueFactor f0).

(** The text of a chain: a factor followed by operator-factor pairs. *)
Definition renderMulChain (f0 : factor) (l : list (mulop * factor)) : list rune :=
  renderFactor f0 ++ flat_map (fun x => mulRune (fst x) :: renderFactor (snd x)) l.

Definition renderAddChain (f0 : factor) (l : list (addop * factor)) : list rune :=
  renderFactor f0 ++ flat_map (fun x => addRune (fst x) :: renderFactor (snd x)) l.

(** A character of the [default] case that survives the removal of spaces. *)
Definition isOperandChar (c : rune) : bool :=
  negb (isSpecial c) && negb (c =? r_space).

(* ================================================================== *)
(** ** Tasks and the shared state *)

Record Task := mkTask {
  ID         : Z;
  Expression : list rune;
  Status     : string;
  Result     : float;
  AgentID    : Z
}.

Definition setID (id : Z) (t : Task) : Task :=
  mkTask id (Expression t) (Status t) (Result t) (AgentID t).
Definition setStatus (s : string) (t : Task) : Task :=
  mkTask (ID t) (Expression t) s (Result t) (AgentID t).
Definition setResult (v : float) (t : Task) : Task :=
  mkTask (ID t) (Expression t) (Status t) v (AgentID t).

(** Go's [int] on a 64-bit platform. *)
Definition maxInt : Z := 2 ^ 63 - 1.
Definition minInt : Z := - 2 ^ 63.
Definition wrapInt (z : Z) : Z := (z + 2 ^ 63) mod 2 ^ 64 - 2 ^ 63.

(** [make(chan *Task, 100)] *)
Definition taskChannelCap : nat := 100.

(** A [*Task] is modelled by the position of the Task in [tasks], the only
    place through which another goroutine reaches it: the list only grows,
    so a position keeps denoting the same Task.  Before line 52 the Task is
    private to its handler and is kept in the handler's frame.

    A frame is named after the line of main.go its goroutine executes next. *)
Inductive handlerFrame :=
| H48 (task : Task)        (* decoded; next: task.ID = nextTaskID *)
| H49 (task : Task)        (* next: nextTaskID++ *)
| H50 (task : Task)        (* next: task.Status = "queued" (and the Mutex) *)
| H52 (task : Task)        (* next: tasks = append(tasks, &task) *)
| H55 (task : nat)         (* next: taskChannel <- &task *)
| H57 (task : nat)         (* next: encode {"task_id": task.ID} *)
| HReturned (task : nat) (task_id : Z). (* returned; [task_id] was sent back *)

Inductive agentFrame :=
| A99                      (* waiting in [range taskChannel] *)
| A100 (task : nat)        (* next: task.Status = "calculated" *)
| A103 (task : nat)        (* next: task.Result = evaluateExpression(...) *)
| A106 (task : nat).       (* next: task.Status = "completed" *)

(** The package variables, the frames of the running goroutines, whether an
    unrecovered panic has ended the process, and two history variables: the
    pointers sent on and received from [taskChannel] so far, in order. *)
Record state := mkState {
  tasks       : list Task;
  nextTaskID  : Z;
  taskChannel : list nat;
  handlers    : list handlerFrame;
  agents      : list agentFrame;
  crashed     : bool;
  sent        : list nat;
  received    : list nat
}.

Definition withTasks (f : list Task -> list Task) (st : state) : state :=
  mkState (f (tasks st)) (nextTaskID st) (taskChannel st) (handlers st)
          (agents st) (crashed st) (sent st) (received st).
Definition withNextTaskID (n : Z) (st : state) : state :=
  mkState (tasks st) n (taskChannel st) (handlers st)
          (agents st) (crashed st) (sent st) (received st).
Definition withHandler (i : nat) (f : handlerFrame) (st : state) : state :=
  mkState (tasks st) (nextTaskID st) (taskChannel st) (<[i := f]> (handlers st))
          (agents st) (crashed st) (sent st) (received st).
Definition withAgent (j : nat) (a : agentFrame) (st : state) : state :=
  mkState (tasks st) (nextTaskID st) (taskChannel st) (handlers st)
          (<[j := a]> (agents st)) (crashed st) (sent st) (received st).
Definition send (p : nat) (st : state) : state :=
  mkState (tasks st) (nextTaskID st) (taskChannel st ++ [p]) (handlers st)
          (agents st) (crashed st) (sent st ++ [p]) (received st).
Definition receive (p : nat) (rest : list nat) (st : state) : state :=
  mkState (tasks st) (nextTaskID st) rest (handlers st)
          (agents st) (crashed st) (sent st) (received st ++ [p]).
Definition spawnHandler (f : handlerFrame) (st : state) : state :=
  mkState (tasks st) (nextTaskID st) (taskChannel st) (handlers st ++ [f])
          (agents st) (crashed st) (sent st) (received st).
Definition crash (st : state) : state :=
  mkState (tasks st) (nextTaskID st) (taskChannel st) (handlers st)
          (agents st) true (sent st) (received st).

(** [startAgents(numAgents)]: every agent starts at the head of its loop. *)
Definition startAgents (numAgents : nat) : list agentFrame :=
  repeat A99 numAgents.

(** The state in which [main] starts serving: [go startAgents(3)]. *)
Definition initial : state :=
  mkState [] 1 [] [] (startAgents 3) false [] [].

(** The next statement of the [i]-th running [addTaskHandler]; [None] when
    the goroutine cannot move (it has returned, or its send blocks on a full
    channel).  The increment of line 49 and the append of line 52 are each
    taken as one step: the read and the write inside one of these lines are
    not separated, so an increment or an append lost between two handlers
    that execute the same line at once is not part of this model.  No such
    overlap exists in the runs of [runExclusive]. *)
Definition addTaskHandler (i : nat) (st : state) : option state :=
  match handlers st !! i with
  | Some (H48 task) =>
      Some (withHandler i (H49 (setID (nextTaskID st) task)) st)
  | Some (H49 task) =>
      Some (withHandler i (H50 task)
              (withNextTaskID (wrapInt (nextTaskID st + 1)) st))
  | Some (H50 task) =>
      Some (withHandler i (H52 (setStatus "queued" task)) st)
  | Some (H52 task) =>
      Some (withHandler i (H55 (length (tasks st)))
              (withTasks (fun l => l ++ [task]) st))
  | Some (H55 p) =>
      if (length (taskChannel st) <? taskChannelCap)%nat
      then Some (withHandler i (H57 p) (send p st))
      else None
  | Some (H57 p) =>
      match tasks st !! p with
      | Some task => Some (withHandler i (HReturned p (ID task)) st)
      | None => None
      end
  | Some (HReturned _ _) => None
  | None => None
  end.

(** The next statement of the [j]-th agent of [startAgents]; [None] when the
    agent cannot move (its receive blocks on an empty channel, or the
    evaluation does not end within [fuel]). *)
Definition agentStep (fuel : nat) (j : nat) (st : state) : option state :=
  match agents st !! j with
  | Some A99 =>
      match taskChannel st with
      | p :: rest => Some (withAgent j (A100 p) (receive p rest st))
      | [] => None
      end
  | Some (A100 p) =>
      Some (withAgent j (A103 p)
              (withTasks (alter (setStatus "calculated") p) st))
  | Some (A103 p) =>
      match tasks st !! p with
      | Some task =>
          match evaluateExpression fuel (Expression task) with
          | Some (Returned v) =>
              Some (withAgent j (A106 p) (withTasks (alter (setResult v) p) st))
          | Some PanicIndexOutOfRange => Some (crash st)
          | None => None
          end
      | None => None
      end
  | Some (A106 p) =>
      Some (withAgent j A99
              (withTasks (alter (setStatus "completed") p) st))
  | None => None
  end.

(** What the scheduler may do next: accept a POST /tasks/add whose body
    decodes to [body], or let one goroutine execute its next statement. *)
Inductive event :=
| Submit (body : Task)
| Handler (i : nat)
| Agent (j : nat) (fuel : nat).

Definition step (st : state) (ev : event) : option state :=
  if crashed st then None
  else match ev with
       | Submit body => Some (spawnHandler (H48 body) st)
       | Handler i => addTaskHandler i st
       | Agent j fuel => agentStep fuel j st
       end.

Fixpoint run (st : state) (evs : list event) : option state :=
  match evs with
  | [] => Some st
  | ev :: evs' =>
      match step st ev with
      | Some st' => run st' evs'
      | None => None
      end
  end.

(** *** Schedules used as examples *)

(** The Task decoded from the body [{"expression": ...}]. *)
Definition submission (expression : string) : Task :=
  mkTask 0 (runes expression) "" 0%float 0.

(** All six statements of handler [i]; all four of an iteration of agent [j]. *)
Definition handleFully (i : nat) : list event := repeat (Handler i) 6.
Definition agentFully (j fuel : nat) : list event := repeat (Agent j fuel) 4.

(** One request served from submission to completion. *)
Definition serveOne (expression : string) : list event :=
  Submit (submission expression) :: handleFully 0 ++ agentFully 0 2.

(** A division by zero served from submission to completion. *)
Definition serveDivisionByZero : list event := serveOne "1/0".

(** Two requests, the second submitted after the first has returned. *)
Definition successiveSubmissions : list event :=
  Submit (submission "2+3") :: handleFully 0
  ++ Submit (submission "4") :: handleFully 1.

(** Two requests whose handlers both execute line 48 before either
    executes line 49. *)
Definition racingSubmissions : list event :=
  [Submit (submission "2+3"); Submit (submission "4"); Handler 0; Handler 1]
  ++ repeat (Handler 0) 5 ++ repeat (Handler 1) 5.

(** Two requests; the second handler runs lines 48 to 52 after the first
    has incremented [nextTaskID] and before it appends. *)
Definition overtakingSubmissions : list event :=
  [Submit (submission "2+3"); Submit (submission "4");
   Handler 0; Handler 0;
   Handler 1; Handler 1; Handler 1; Handler 1;
   Handler 0; Handler 0].

(** Lines 48 to 52 of a handler: from reading [nextTaskID] to appending. *)
Definition critical (f : handlerFrame) : bool :=
  match f with
  | H49 _ | H50 _ | H52 _ => true
  | _ => false
  end.

(** At most one handler is inside lines 48 to 52. *)
Definition exclusive (st : state) : bool :=
  (length (List.filter critical (handlers st)) <=? 1)%nat.

(** Runs in which lines 48 to 52 of different handlers never overlap, as
    when the requests arrive one after the other. *)
Fixpoint runExclusive (st : state) (evs : list event) : option state :=
  match evs with
  | [] => Some st
  | ev :: evs' =>
      match step st ev with
      | Some st' => if exclusive st' then runExclusive st' evs' else None
      | None => None
      end
  end.

(** The order of the task states. *)
Inductive statusNext : string -> string -> Prop :=
| queued_calculated : statusNext "queued" "calculated"
| calculated_completed : statusNext "calculated" "completed".

Definition statusRank (s : string) : nat :=
  if String.eqb s "queued" then 0
  else if String.eqb s "calculated" then 1
  else if String.eqb s "completed" then 2
  else 3.

(* ================================================================== *)
(** ** Reading a result: GET /tasks/{id}/result *)

(** [strings.TrimPrefix] *)
Definition TrimPrefix (s prefix : string) : string :=
  if String.prefix prefix s
  then String.substring (String.length prefix)
         (String.length s - String.length prefix) s
  else s.

(** [strings.Split(s, "/")[0]]: the part of [s] before its first slash. *)
Fixpoint firstSegment (s : string) : string :=
  match s with
  | EmptyString => EmptyString
  | String c s' => if Ascii.eqb c "/" then EmptyString else String c (firstSegment s')
  end.

Fixpoint digitsValue (acc : Z) (s : string) : option Z :=
  match s with
  | EmptyString => Some acc
  | String c s' =>
      let d := Z.of_nat (nat_of_ascii c) - 48 in
      if (0 <=? d) && (d <=? 9) then digitsValue (acc * 10 + d) s' else None
  end.

(** [strconv.Atoi]: an optional sign and at least one decimal digit, the
    value within the range of [int]; [None] is the error result. *)
Definition Atoi (s : string) : option Z :=
  match s with
  | EmptyString => None
  | String c s' =>
      let neg := Ascii.eqb c "-" in
      let digits := if neg || Ascii.eqb c "+" then s' else s in
      match digits with
      | EmptyString => None
      | _ =>
          match digitsValue 0 digits with
          | Some n =>
              let v := if neg then - n else n in
              if (minInt <=? v) && (v <=? maxInt) then Some v else None
          | None => None
          end
      end
  end.

(** Lines 68 to 74: the task for an identifier, by position. *)
Definition lookupTask (tasks : list Task) (taskID : Z) : option Task :=
  if (taskID <? 1) || (taskID >? Z.of_nat (length tasks)) then None
  else tasks !! Z.to_nat (taskID - 1).

Inductive responseBody :=
| PlainText (msg : string)           (* http.Error *)
| JSONStatus (status : string)       (* {"status": ...} *)
| JSONResult (result : float)        (* {"result": ...} *)
| EmptyBody                          (* Encode failed, nothing was written *)
| NoResponse.                        (* the handler panicked *)

Record response := mkResponse {
  statusCode : Z;
  body : responseBody
}.

Definition StatusOK : Z := 200.
Definition StatusAccepted : Z := 202.
Definition StatusBadRequest : Z := 400.
Definition StatusNotFound : Z := 404.

(** [encoding/json] has no text for a float64 that is infinite or not a
    number: [Encode] then writes nothing and returns an error. *)
Definition jsonEncodable (v : float) : bool :=
  negb (PrimFloat.is_nan v || PrimFloat.is_infinity v).

(** Lines 60 to 85.  The error of [Encode] is dropped (line 84): when the
    Result cannot be encoded the handler returns having written nothing,
    and the server sends the status 200 with an empty body. *)
Definition getTaskResultHandler (URLPath : string) (tasks : list Task)
  : response :=
  let segment0 := firstSegment (TrimPrefix URLPath "/tasks/") in
  match Atoi segment0 with
  | None => mkResponse StatusBadRequest (PlainText "Invalid task ID")
  | Some taskID =>
      if (taskID <? 1) || (taskID >? Z.of_nat (length tasks))
      then mkResponse StatusNotFound (PlainText "Task not found")
      else
        match tasks !! Z.to_nat (taskID - 1) with
        | None => mkResponse 0 NoResponse
        | Some task =>
            if negb (String.eqb (Status task) "completed")
            then mkResponse StatusAccepted (JSONStatus "Task is not completed yet")
            else if jsonEncodable (Result task)
            then mkResponse StatusOK (JSONResult (Result task))
            else mkResponse StatusOK EmptyBody
        end
  end.

(* ================================================================== *)
(** ** Predicates used in the proofs *)

(** Handlers between the increment and the append. *)
Definition incremented (f : handlerFrame) : bool :=
  match f with
  | H50 _ | H52 _ => true
  | _ => false
  end.

(** The Task a handler inside lines 48 to 52 is about to append. *)
Definition frameTask (f : handlerFrame) : option Task :=
  match f with
  | H49 t | H50 t | H52 t => Some t
  | _ => None
  end.

(** The position a handler appended its Task at. *)
Definition handlerPos (f : handlerFrame) : option nat :=
  match f with
  | H55 p | H57 p | HReturned p _ => Some p
  | _ => None
  end.

(** What each holder of a pointer expects of the status of its Task: the
    handler that has yet to send it, the channel, and the agents. *)
Definition handlerClaim (f : handlerFrame) : option (nat * string) :=
  match f with
  | H55 p => Some (p, "queued"%string)
  | _ => None
  end.

Definition agentClaim (a : agentFrame) : option (nat * string) :=
  match a with
  | A99 => None
  | A100 p => Some (p, "queued"%string)
  | A103 p | A106 p => Some (p, "calculated"%string)
  end.

Definition claims (st : state) : list (nat * string) :=
  omap handlerClaim (handlers st)
  ++ ((fun p => (p, "queued"%string)) <$> taskChannel st)
  ++ omap agentClaim (agents st).

Definition statusAt (l : list Task) (c : nat * string) : Prop :=
  exists t, l !! c.1 = Some t /\ Status t = c.2.

(** Every pointer has one holder, and the Task it denotes is in the state
    its holder expects. *)
Definition lifecycleInv (st : state) : Prop :=
  NoDup (claims st).*1 /\
  Forall (statusAt (tasks st)) (claims st) /\
  (forall i task, handlers st !! i = Some (H52 task) -> Status task = "queued"%string).

(** The channel holds what was sent and not yet received, in order, and
    never more than its capacity. *)
Definition channelInv (st : state) : Prop :=
  sent st = received st ++ taskChannel st /\
  (length (taskChannel st) <= taskChannelCap)%nat.

(** Identifiers follow positions, as long as lines 48 to 52 of different
    handlers do not overlap. *)
Definition registryInv (st : state) : Prop :=
  exclusive st = true /\
  (forall p t, tasks st !! p = Some t -> ID t = wrapInt (Z.of_nat p + 1)) /\
  (forall i f t, handlers st !! i = Some f -> frameTask f = Some t ->
     ID t = wrapInt (Z.of_nat (length (tasks st)) + 1)) /\
  nextTaskID st
  = wrapInt (Z.of_nat (length (tasks st))
             + Z.of_nat (length (List.filter incremented (handlers st))) + 1) /\
  (forall i p id, handlers st !! i = Some (HReturned p id) ->
     id = wrapInt (Z.of_nat p + 1)).

(** Handlers appended at different positions, all within the list. *)
Definition positionsInv (st : state) : Prop :=
  NoDup (omap handlerPos (handlers st)) /\
  Forall (fun p => (p < length (tasks st))%nat) (omap handlerPos (handlers st)).

(** The statements of the goroutines as a relation between states. *)
Inductive transition (st : state) : state -> Prop :=
| T_submit body :
    transition st (spawnHandler (H48 body) st)
| T_48 i task :
    handlers st !! i = Some (H48 task) ->
    transition st (withHandler i (H49 (setID (nextTaskID st) task)) st)
| T_49 i task :
    handlers st !! i = Some (H49 task) ->
    transition st (withHandler i (H50 task)
                     (withNextTaskID (wrapInt (nextTaskID st + 1)) st))
| T_50 i task :
    handlers st !! i = Some (H50 task) ->
    transition st (withHandler i (H52 (setStatus "queued" task)) st)
| T_52 i task :
    handlers st !! i = Some (H52 task) ->
    transition st (withHandler i (H55 (length (tasks st)))
                     (withTasks (fun l => l ++ [task]) st))
| T_55 i p :
    handlers st !! i = Some (H55 p) ->
    (length (taskChannel st) < taskChannelCap)%nat ->
    transition st (withHandler i (H57 p) (send p st))
| T_57 i p task :
    handlers st !! i = Some (H57 p) ->
    tasks st !! p = Some task ->
    transition st (withHandler i (HReturned p (ID task)) st)
| T_99 j p rest :
    agents st !! j = Some A99 ->
    taskChannel st = p :: rest ->
    transition st (withAgent j (A100 p) (receive p rest st))
| T_100 j p :
    agents st !! j = Some (A100 p) ->
    transition st (withAgent j (A103 p)
                     (withTasks (alter (setStatus "calculated") p) st))
| T_103 j p task fuel v :
    agents st !! j = Some (A103 p) ->
    tasks st !! p = Some task ->
    evaluateExpression fuel (Expression task) = Some (Returned v) ->
    transition st (withAgent j (A106 p)
                     (withTasks (alter (setResult v) p) st))
| T_103_panic j p task fuel :
    agents st !! j = Some (A103 p) ->
    tasks st !! p = Some task ->
    evaluateExpression fuel (Expression task) = Some PanicIndexOutOfRange ->
    transition st (crash st)
| T_106 j p :
    agents st !! j = Some (A106 p) ->
    transition st (withAgent j A99
                     (withTasks (alter (setStatus "completed") p) st)).

(** The loop with condition [cond] stops at the operator stack [ops]. *)
Definition stopsAt (cond : rune -> bool) (ops : list rune) : Prop :=
  match ops with
  | [] => True
  | top :: _ => cond top = false
  end.

(** The stacks after a term of value [v] has been scanned above [nums] and
    [ops]: its value is on top, or its last product is still to be formed. *)
Definition pendingTerm (v : float) (nums : list float) (ops : list rune)
    (st : stacks) : Prop :=
  st = mkStacks (v :: nums) ops \/
  exists a b o, st = mkStacks (b :: a :: nums) (mulRune o :: ops)
                /\ applyMul o a b = v.

(** The same for an expression: its last sum may still be to be formed. *)
Definition pendingExpr (v : float) (nums : list float) (ops : list rune)
    (st : stacks) : Prop :=
  pendingTerm v nums ops st \/
  exists a v1 o, pendingTerm v1 (a :: nums) (addRune o :: ops) st
                 /\ applyAdd o a v1 = v.

(** The value of the sum accumulated by [flatExpr]. *)
Definition accValue (acc : option (expr * addop)) : option (float * addop) :=
  option_map (fun p => (value (fst p), snd p)) acc.

Scheme expr_mut := Induction for expr Sort Prop
  with term_mut := Induction for term Sort Prop
  with factor_mut := Induction for factor Sort Prop.
Combined Scheme expr_term_factor_ind from expr_mut, term_mut, factor_mut.

(* ================================================================== *)
(** ** The simulated delays

    [performOperation] sleeps for the duration the table [operations] gives
    to the operator before it computes.  The evaluator is repeated here
    with a clock beside the stacks: the time slept so far, in nanoseconds
    as [time.Duration] counts. *)

Record Operation := mkOperation {
  Name     : string;
  Duration : Z
}.

(** [time.Second] *)
Definition Second : Z := 1000000000.

Definition operations : list Operation :=
  [ mkOperation "Сложение" (20 * Second);
    mkOperation "Вычитание" (30 * Second);
    mkOperation "Умножение" (25 * Second);
    mkOperation "Деление" (50 * Second) ].

(** [operations[k].Duration] *)
Definition operationDuration (k : nat) : Z :=
  match operations !! k with
  | Some o => Duration o
  | None => 0
  end.

(** The [time.Sleep] of the [switch op]: none when [op] is no operator. *)
Definition sleepOf (op : rune) : Z :=
  if op =? r_plus then operationDuration 0
  else if op =? r_minus then operationDuration 1
  else if op =? r_star then operationDuration 2
  else if op =? r_slash then operationDuration 3
  else 0.

Definition performOperationTimed (ts : stacks * Z) : stacks * Z :=
  match operandStack (fst ts), operatorStack (fst ts) with
  | b :: a :: rest, op :: ops =>
      (mkStacks (applyOp op a b :: rest) ops, snd ts + sleepOf op)
  | _, _ => ts
  end.

Fixpoint whileTopTimed (cond : rune -> bool) (fuel : nat) (ts : stacks * Z)
  : option (stacks * Z) :=
  match operatorStack (fst ts) with
  | [] => Some ts
  | top :: _ =>
      if cond top then
        match fuel with
        | O => None
        | S fuel' => whileTopTimed cond fuel' (performOperationTimed ts)
        end
      else Some ts
  end.

(** A step on the stacks that takes no time. *)
Definition untimed (f : stacks -> stacks) (ts : stacks * Z) : stacks * Z :=
  (f (fst ts), snd ts).

Definition scanCharTimed (fuel : nat) (char : rune) (ts : stacks * Z)
  : option (stacks * Z) :=
  if char =? r_lparen then Some (untimed (pushOperator char) ts)
  else if char =? r_rparen then
    option_map (untimed dropLParen) (whileTopTimed notLParen fuel ts)
  else if (char =? r_plus) || (char =? r_minus) then
    option_map (untimed (pushOperator char)) (whileTopTimed isArith fuel ts)
  else if (char =? r_star) || (char =? r_slash) then
    option_map (untimed (pushOperator char)) (whileTopTimed isMulDiv fuel ts)
  else Some (untimed (pushOperand (fst (ParseFloat char))) ts).

Fixpoint scanTimed (fuel : nat) (expression : list rune) (ts : stacks * Z)
  : option (stacks * Z) :=
  match expression with
  | [] => Some ts
  | char :: rest =>
      match scanCharTimed fuel char ts with
      | Some ts' => scanTimed fuel rest ts'
      | None => None
      end
  end.

(** The outcome of a call together with the time it has slept. *)
Definition evaluateExpressionTimed (fuel : nat) (expression : list rune)
  : option (outcome * Z) :=
  match scanTimed fuel (removeSpaces expression) (emptyStacks, 0) with
  | None => None
  | Some ts =>
      match whileTopTimed anyTop fuel ts with
      | None => None
      | Some ts' => Some (bottom (operandStack (fst ts')), snd ts')
      end
  end.

(** The delays of the operator characters of an expression, added up. *)
Definition sleepTotal (expression : list rune) : Z :=
  fold_right (fun c acc => sleepOf c + acc) 0 expression.

(** The delays of the operators waiting on the operator stack. *)
Definition sleepPending (ts : stacks * Z) : Z :=
  snd ts + sleepTotal (operatorStack (fst ts)).

(* ================================================================== *)
(** ** Further predicates on states *)

(** An expression of spaces only. *)
Definition isBlank (expression : list rune) : bool :=
  forallb (fun c => c =? r_space) expression.

(** The Result of a task is what its Expression evaluates to. *)
Definition resultIsValue (t : Task) : Prop :=
  exists fuel, evaluateExpression fuel (Expression t) = Some (Returned (Result t)).

(** The agents that hold an evaluated Task have written its value. *)
Definition resultInv (st : state) : Prop :=
  (forall j p t, agents st !! j = Some (A106 p) -> tasks st !! p = Some t ->
     resultIsValue t) /\
  (forall p t, tasks st !! p = Some t -> Status t = "completed"%string ->
     resultIsValue t).

(** The position a handler has sent on the channel. *)
Definition sentPos (f : handlerFrame) : option nat :=
  match f with
  | H57 p | HReturned p _ => Some p
  | _ => None
  end.

(** The Task an agent is evaluating or has evaluated. *)
Definition calculating (a : agentFrame) : option nat :=
  match a with
  | A103 p | A106 p => Some p
  | _ => None
  end.

(** Every Task in the state "calculated" is in the hands of an agent. *)
Definition calculatingInv (st : state) : Prop :=
  forall p t, tasks st !! p = Some t -> Status t = "calculated"%string ->
    p ∈ omap calculating (agents st).

(** The path of the request for the result of the task [id]. *)
Definition resultPath (id : string) : string :=
  String.append "/tasks/" (String.append id "/result").

(** Whether a string has a slash. *)
Fixpoint hasSlash (s : string) : bool :=
  match s with
  | EmptyString => false
  | String c s' => Ascii.eqb c "/" || hasSlash s'
  end.

(* ================================================================== *)
(** * Properties of the evaluator *)

Lemma applyOp_addRune o a b : applyOp (addRune o) a b = applyAdd o a b.
Proof. destruct o; reflexivity. Qed.

Lemma applyOp_mulRune o a b : applyOp (mulRune o) a b = applyMul o a b.
Proof. destruct o; reflexivity. Qed.

Lemma ParseFloat_digit d : ParseFloat (digitRune d) = (digitValue d, None).
Proof. destruct d; reflexivity. Qed.

(** More fuel does not change the result of a loop that ended. *)
Lemma whileTop_mono cond fuel fuel' st r :
  whileTop cond fuel st = Some r -> (fuel <= fuel')%nat ->
  whileTop cond fuel' st = Some r.
Proof.
  revert fuel' st. induction fuel as [|fuel IH]; intros fuel' st H Hle.
  - destruct fuel'; simpl in *; destruct (operatorStack st) as [|top ops];
      try assumption; destruct (cond top); congruence.
  - destruct fuel' as [|fuel']; [lia|]. simpl in *.
    destruct (operatorStack st) as [|top ops]; [assumption|].
    destruct (cond top); [|assumption].
    apply IH; [assumption|lia].
Qed.

(** A loop whose condition holds while [performOperation] refuses to reduce
    never ends. *)
Lemma whileTop_stuck cond st top ops :
  operatorStack st = top :: ops -> cond top = true ->
  (length (operandStack st) < 2)%nat ->
  forall fuel, whileTop cond fuel st = None.
Proof.
  intros Hops Hc Hlen fuel. induction fuel as [|fuel IH]; simpl.
  - rewrite Hops, Hc. reflexivity.
  - rewrite Hops, Hc.
    replace (performOperation st) with st; [exact IH|].
    unfold performOperation. destruct (operandStack st) as [|b [|a rest]];
      simpl in Hlen; try reflexivity; lia.
Qed.

Lemma whileTop_stop cond fuel st :
  stopsAt cond (operatorStack st) -> whileTop cond fuel st = Some st.
Proof.
  intros H. destruct fuel; simpl; destruct (operatorStack st) as [|top ops];
    try reflexivity; simpl in H; rewrite H; reflexivity.
Qed.

Lemma whileTop_step cond fuel b a nums op ops :
  cond op = true ->
  whileTop cond (S fuel) (mkStacks (b :: a :: nums) (op :: ops))
  = whileTop cond fuel (mkStacks (applyOp op a b :: nums) ops).
Proof. intros H. simpl. rewrite H. reflexivity. Qed.

Lemma drain_term cond fuel v nums ops st :
  pendingTerm v nums ops st ->
  cond r_star = true -> cond r_slash = true -> stopsAt cond ops ->
  whileTop cond (S fuel) st = Some (mkStacks (v :: nums) ops).
Proof.
  intros [-> | (a & b & o & -> & Hv)] Hs Hd Hstop.
  - apply whileTop_stop. exact Hstop.
  - rewrite whileTop_step by (destruct o; auto).
    rewrite applyOp_mulRune, Hv. apply whileTop_stop. exact Hstop.
Qed.

Lemma drain_expr cond fuel v nums ops st :
  pendingExpr v nums ops st ->
  cond r_plus = true -> cond r_minus = true ->
  cond r_star = true -> cond r_slash = true -> stopsAt cond ops ->
  whileTop cond (S (S fuel)) st = Some (mkStacks (v :: nums) ops).
Proof.
  intros [H | (a & v1 & o & H & Hv)] Hp Hm Hs Hd Hstop.
  - apply drain_term; assumption.
  - assert (Ho : cond (addRune o) = true) by (destruct o; auto).
    destruct H as [-> | (a' & b' & o' & -> & Hv')].
    + rewrite whileTop_step by exact Ho.
      rewrite applyOp_addRune, Hv. apply whileTop_stop. exact Hstop.
    + rewrite whileTop_step by (destruct o'; auto).
      rewrite applyOp_mulRune, Hv'.
      rewrite whileTop_step by exact Ho.
      rewrite applyOp_addRune, Hv. apply whileTop_stop. exact Hstop.
Qed.

Lemma stopsAt_arith_muldiv ops : stopsAt isArith ops -> stopsAt isMulDiv ops.
Proof.
  destruct ops as [|top ops]; simpl; [auto|]. unfold isArith, isMulDiv.
  intros H. apply orb_false_iff in H as [H1 H2].
  apply orb_false_iff in H1 as [H1 H3]. rewrite H3, H2. reflexivity.
Qed.

Lemma scanChar_add fuel o v nums ops st :
  pendingExpr v nums ops st -> stopsAt isArith ops ->
  scanChar (S (S fuel)) (addRune o) st
  = Some (mkStacks (v :: nums) (addRune o :: ops)).
Proof.
  intros H Hstop.
  assert (E : whileTop isArith (S (S fuel)) st = Some (mkStacks (v :: nums) ops))
    by (apply drain_expr; try reflexivity; assumption).
  destruct o; unfold scanChar; simpl in *; rewrite E; reflexivity.
Qed.

Lemma scanChar_mul fuel o v nums ops st :
  pendingTerm v nums ops st -> stopsAt isMulDiv ops ->
  scanChar (S (S fuel)) (mulRune o) st
  = Some (mkStacks (v :: nums) (mulRune o :: ops)).
Proof.
  intros H Hstop.
  assert (E : whileTop isMulDiv (S (S fuel)) st = Some (mkStacks (v :: nums) ops))
    by (apply drain_term; try reflexivity; assumption).
  destruct o; unfold scanChar; simpl in *; rewrite E; reflexivity.
Qed.

Lemma scanChar_rparen fuel v nums ops st :
  pendingExpr v nums (r_lparen :: ops) st ->
  scanChar (S (S fuel)) r_rparen st = Some (mkStacks (v :: nums) ops).
Proof.
  intros H.
  assert (E : whileTop notLParen (S (S fuel)) st
              = Some (mkStacks (v :: nums) (r_lparen :: ops)))
    by (apply drain_expr; try reflexivity; assumption).
  unfold scanChar; simpl in *; rewrite E; reflexivity.
Qed.

Lemma scanChar_digit fuel d st :
  scanChar fuel (digitRune d) st = Some (pushOperand (digitValue d) st).
Proof. destruct d; reflexivity. Qed.

(** Scanning the text of an expression, a term or a factor above any stacks
    leaves its value on them, up to the reductions still pending. *)
Lemma scan_render fuel :
  (forall e rest nums ops, stopsAt isArith ops ->
     exists st', scan (S (S fuel)) (render e ++ rest) (mkStacks nums ops)
                 = scan (S (S fuel)) rest st'
                 /\ pendingExpr (value e) nums ops st') /\
  (forall t rest nums ops, stopsAt isMulDiv ops ->
     exists st', scan (S (S fuel)) (renderTerm t ++ rest) (mkStacks nums ops)
                 = scan (S (S fuel)) rest st'
                 /\ pendingTerm (valueTerm t) nums ops st') /\
  (forall f rest nums ops,
     scan (S (S fuel)) (renderFactor f ++ rest) (mkStacks nums ops)
     = scan (S (S fuel)) rest (mkStacks (valueFactor f :: nums) ops)).
Proof.
  apply expr_term_factor_ind.
  - (* ETerm *)
    intros t IHt rest nums ops Hstop.
    destruct (IHt rest nums ops (stopsAt_arith_muldiv _ Hstop)) as (st' & E & P).
    exists st'. split; [exact E | left; exact P].
  - (* EAdd *)
    intros e IHe o t IHt rest nums ops Hstop. simpl.
    rewrite <- app_assoc. simpl.
    destruct (IHe (addRune o :: renderTerm t ++ rest) nums ops Hstop)
      as (st1 & E1 & P1).
    rewrite E1. cbn [scan].
    rewrite (scanChar_add fuel o _ _ _ _ P1 Hstop).
    destruct (IHt rest (value e :: nums) (addRune o :: ops)) as (st2 & E2 & P2).
    { destruct o; reflexivity. }
    exists st2. split; [exact E2|]. right. exists (value e), (valueTerm t), o.
    split; [exact P2 | reflexivity].
  - (* TFactor *)
    intros f IHf rest nums ops Hstop. simpl.
    exists (mkStacks (valueFactor f :: nums) ops).
    split; [apply IHf | left; reflexivity].
  - (* TMul *)
    intros t IHt o f IHf rest nums ops Hstop. simpl.
    rewrite <- app_assoc. simpl.
    destruct (IHt (mulRune o :: renderFactor f ++ rest) nums ops Hstop)
      as (st1 & E1 & P1).
    rewrite E1. cbn [scan].
    rewrite (scanChar_mul fuel o _ _ _ _ P1 Hstop).
    rewrite IHf.
    exists (mkStacks (valueFactor f :: valueTerm t :: nums) (mulRune o :: ops)).
    split; [reflexivity|]. right. exists (valueTerm t), (valueFactor f), o.
    split; reflexivity.
  - (* FDigit *)
    intros d rest nums ops. simpl. rewrite scanChar_digit. reflexivity.
  - (* FParen *)
    intros e IHe rest nums ops. simpl.
    rewrite <- app_assoc. simpl.
    change (pushOperator r_lparen (mkStacks nums ops))
      with (mkStacks nums (r_lparen :: ops)).
    destruct (IHe (r_rparen :: rest) nums (r_lparen :: ops)) as (st1 & E1 & P1).
    { reflexivity. }
    rewrite E1. cbn [scan].
    rewrite (scanChar_rparen fuel _ _ _ _ P1). reflexivity.
Qed.

Lemma removeSpaces_app l1 l2 :
  removeSpaces (l1 ++ l2) = removeSpaces l1 ++ removeSpaces l2.
Proof. apply List.filter_app. Qed.

Lemma removeSpaces_render :
  (forall e, removeSpaces (render e) = render e) /\
  (forall t, removeSpaces (renderTerm t) = renderTerm t) /\
  (forall f, removeSpaces (renderFactor f) = renderFactor f).
Proof.
  apply expr_term_factor_ind; simpl; intros.
  - assumption.
  - rewrite removeSpaces_app. change (addRune o :: renderTerm t)
      with ([addRune o] ++ renderTerm t). rewrite removeSpaces_app.
    rewrite H, H0. destruct o; reflexivity.
  - assumption.
  - rewrite removeSpaces_app. change (mulRune o :: renderFactor f)
      with ([mulRune o] ++ renderFactor f). rewrite removeSpaces_app.
    rewrite H, H0. destruct o; reflexivity.
  - destruct d; reflexivity.
  - change (r_lparen :: render e ++ [r_rparen])
      with ([r_lparen] ++ render e ++ [r_rparen]).
    rewrite !removeSpaces_app, H. reflexivity.
Qed.

(** The evaluator computes the value of every expression of the grammar. *)
Lemma evaluate_render fuel e :
  evaluateExpression (S (S fuel)) (render e) = Some (Returned (value e)).
Proof.
  unfold evaluateExpression, emptyStacks.
  rewrite (proj1 removeSpaces_render).
  destruct (proj1 (scan_render fuel) e [] [] []) as (st' & E & P); [exact I|].
  rewrite app_nil_r in E. rewrite E. cbn [scan].
  assert (D : whileTop anyTop (S (S fuel)) st' = Some (mkStacks [value e] []))
    by (apply drain_expr; try reflexivity; assumption).
  rewrite D. reflexivity.
Qed.

(** Spaces are removed before anything else. *)
Lemma evaluate_removeSpaces fuel s :
  evaluateExpression fuel (removeSpaces s) = evaluateExpression fuel s.
Proof.
  unfold evaluateExpression, removeSpaces.
  assert (E : forall l : list rune,
             List.filter (fun c => negb (c =? r_space)) (List.filter (fun c => negb (c =? r_space)) l)
             = List.filter (fun c => negb (c =? r_space)) l).
  { induction l as [|c l IH]; simpl; [reflexivity|].
    destruct (negb (c =? r_space)) eqn:Hc; simpl; [rewrite Hc, IH|]; auto. }
  rewrite E. reflexivity.
Qed.

(** *** Expressions without parentheses *)

Lemma render_closeExpr_mul acc cur o f :
  render (closeExpr acc (TMul cur o f))
  = render (closeExpr acc cur) ++ mulRune o :: renderFactor f.
Proof.
  destruct acc as [[e o']|]; simpl; [|reflexivity].
  rewrite <- app_assoc. reflexivity.
Qed.

Lemma render_flatExpr l : forall acc cur,
  render (flatExpr acc cur l)
  = render (closeExpr acc cur)
    ++ flat_map (fun od => [binopRune (fst od); digitRune (snd od)]) l.
Proof.
  induction l as [|[[o|o] d] l IH]; intros acc cur; simpl.
  - rewrite app_nil_r. reflexivity.
  - rewrite IH. simpl. rewrite <- app_assoc. reflexivity.
  - rewrite IH, render_closeExpr_mul. rewrite <- app_assoc. reflexivity.
Qed.

Lemma value_closeExpr acc cur :
  value (closeExpr acc cur) = closeSum (accValue acc) (valueTerm cur).
Proof. destruct acc as [[e o]|]; reflexivity. Qed.

Lemma value_flatExpr l : forall acc cur,
  value (flatExpr acc cur l) = precedenceFold (accValue acc) (valueTerm cur) l.
Proof.
  induction l as [|[[o|o] d] l IH]; intros acc cur; simpl.
  - apply value_closeExpr.
  - rewrite IH. simpl. rewrite value_closeExpr. reflexivity.
  - rewrite IH. reflexivity.
Qed.

(** *** Chains *)

Lemma renderTerm_mulChain l : forall t0,
  renderTerm (fold_left (fun t x => TMul t (fst x) (snd x)) l t0)
  = renderTerm t0 ++ flat_map (fun x => mulRune (fst x) :: renderFactor (snd x)) l.
Proof.
  induction l as [|[o f] l IH]; intros t0; simpl.
  - rewrite app_nil_r. reflexivity.
  - rewrite IH. simpl. rewrite <- app_assoc. reflexivity.
Qed.

Lemma valueTerm_mulChain l : forall t0,
  valueTerm (fold_left (fun t x => TMul t (fst x) (snd x)) l t0)
  = fold_left (fun acc x => applyMul (fst x) acc (valueFactor (snd x))) l (valueTerm t0).
Proof.
  induction l as [|[o f] l IH]; intros t0; simpl; [reflexivity|].
  rewrite IH. reflexivity.
Qed.

Lemma render_addChain l : forall e0,
  render (fold_left (fun e x => EAdd e (fst x) (TFactor (snd x))) l e0)
  = render e0 ++ flat_map (fun x => addRune (fst x) :: renderFactor (snd x)) l.
Proof.
  induction l as [|[o f] l IH]; intros e0; simpl.
  - rewrite app_nil_r. reflexivity.
  - rewrite IH. simpl. rewrite <- app_assoc. reflexivity.
Qed.

Lemma value_addChain l : forall e0,
  value (fold_left (fun e x => EAdd e (fst x) (TFactor (snd x))) l e0)
  = fold_left (fun acc x => applyAdd (fst x) acc (valueFactor (snd x))) l (value e0).
Proof.
  induction l as [|[o f] l IH]; intros e0; simpl; [reflexivity|].
  rewrite IH. reflexivity.
Qed.

(** *** Operand characters *)

Lemma scanChar_operand fuel char st :
  isSpecial char = false ->
  scanChar fuel char st = Some (pushOperand (fst (ParseFloat char)) st).
Proof.
  unfold isSpecial, scanChar. intros H.
  destruct (char =? r_lparen); [discriminate H|].
  destruct (char =? r_rparen); [discriminate H|].
  destruct (char =? r_plus); [discriminate H|].
  destruct (char =? r_minus); [discriminate H|].
  destruct (char =? r_star); [discriminate H|].
  destruct (char =? r_slash); [discriminate H|].
  reflexivity.
Qed.

Lemma isOperandChar_special c : isOperandChar c = true -> isSpecial c = false.
Proof.
  unfold isOperandChar. intros H. apply andb_true_iff in H as [H _].
  apply negb_true_iff in H. exact H.
Qed.

Lemma removeSpaces_operands cs :
  forallb isOperandChar cs = true -> removeSpaces cs = cs.
Proof.
  induction cs as [|c cs IH]; simpl; [reflexivity|].
  intros H. apply andb_true_iff in H as [Hc Hcs].
  unfold isOperandChar in Hc. apply andb_true_iff in Hc as [_ Hc].
  rewrite Hc. f_equal. apply IH. exact Hcs.
Qed.

Lemma scan_operands fuel cs : forall nums ops,
  forallb isOperandChar cs = true ->
  scan fuel cs (mkStacks nums ops)
  = Some (mkStacks (rev (map (fun c => fst (ParseFloat c)) cs) ++ nums) ops).
Proof.
  induction cs as [|c cs IH]; intros nums ops H; simpl; [reflexivity|].
  simpl in H. apply andb_true_iff in H as [Hc Hcs].
  rewrite (scanChar_operand _ _ _ (isOperandChar_special _ Hc)).
  unfold pushOperand; simpl. rewrite IH by exact Hcs.
  rewrite <- app_assoc. reflexivity.
Qed.

Lemma evaluate_operands fuel c0 cs :
  forallb isOperandChar (c0 :: cs) = true ->
  evaluateExpression fuel (c0 :: cs) = Some (Returned (fst (ParseFloat c0))).
Proof.
  intros H. unfold evaluateExpression, emptyStacks.
  rewrite (removeSpaces_operands _ H), (scan_operands _ _ _ _ H).
  rewrite whileTop_stop by exact I.
  unfold bottom. cbn [operandStack]. rewrite app_nil_r, rev_involutive.
  reflexivity.
Qed.

Lemma float_neq (x y : float) :
  PrimFloat.eqb x x = true -> PrimFloat.eqb x y = false -> x <> y.
Proof. intros Hx Hxy E. rewrite <- E in Hxy. congruence. Qed.

Lemma Returned_inj (x y : float) :
  Some (Returned x) = Some (Returned y) -> x = y.
Proof.
  intros H.
  exact (f_equal (fun o => match o with Some (Returned v) => v | _ => x end) H).
Qed.

(** C2.  For every expression made of single-digit operands and the four
    binary operators, without parentheses, [evaluateExpression] returns the
    value given by the standard precedence, in which [*] and [/] bind
    tighter than [+] and [-]; in particular "2+3*4" evaluates to 14 and not
    to 20. *)
Theorem precedence_without_parentheses (fuel : nat) :
  (forall d0 l,
     evaluateExpression (S (S fuel)) (renderFlat d0 l)
     = Some (Returned (precedenceValue d0 l))) /\
  evaluateExpression (S (S fuel)) (runes "2+3*4") = Some (Returned 14%float) /\
  evaluateExpression (S (S fuel)) (runes "2+3*4") <> Some (Returned 20%float).
Proof.
  assert (G : forall d0 l,
             evaluateExpression (S (S fuel)) (renderFlat d0 l)
             = Some (Returned (precedenceValue d0 l))).
  { intros d0 l. unfold renderFlat, precedenceValue.
    change (precedenceFold None (digitValue d0) l)
      with (precedenceFold (accValue None) (valueTerm (TFactor (FDigit d0))) l).
    rewrite <- value_flatExpr, <- (evaluate_render fuel).
    rewrite render_flatExpr. reflexivity. }
  split; [exact G|].
  assert (E : evaluateExpression (S (S fuel)) (runes "2+3*4")
              = Some (Returned 14%float)).
  { change (runes "2+3*4")
      with (renderFlat D2 [(OpAdd Plus, D3); (OpMul Times, D4)]).
    rewrite G. reflexivity. }
  split; [exact E|]. rewrite E. intros H. apply Returned_inj in H.
  revert H. apply float_neq; reflexivity.
Qed.

(** C6.  A parenthesised subexpression is evaluated as a unit, whatever the
    operator it is an operand of: the evaluator returns the value of every
    expression of the grammar, in which a parenthesised expression is a
    factor; so a product or quotient with a parenthesised operand applies the
    operator to the value of the parenthesised part, and "(2+3)*4" evaluates
    to 20. *)
Theorem parentheses_override_precedence (fuel : nat) :
  (forall e, evaluateExpression (S (S fuel)) (render e)
             = Some (Returned (value e))) /\
  (forall e o f,
     evaluateExpression (S (S fuel))
       ((r_lparen :: render e ++ [r_rparen]) ++ mulRune o :: renderFactor f)
     = Some (Returned (applyMul o (value e) (valueFactor f)))) /\
  (forall t o e,
     evaluateExpression (S (S fuel))
       (renderTerm t ++ mulRune o :: r_lparen :: render e ++ [r_rparen])
     = Some (Returned (applyMul o (valueTerm t) (value e)))) /\
  evaluateExpression (S (S fuel)) (runes "(2+3)*4") = Some (Returned 20%float).
Proof.
  split; [|split; [|split]].
  - intros e. apply evaluate_render.
  - intros e o f.
    apply (evaluate_render fuel (ETerm (TMul (TFactor (FParen e)) o f))).
  - intros t o e.
    apply (evaluate_render fuel (ETerm (TMul t o (FParen e)))).
  - apply (evaluate_render fuel
             (ETerm (TMul (TFactor (FParen
                (EAdd (ETerm (TFactor (FDigit D2))) Plus (TFactor (FDigit D3)))))
                Times (FDigit D4)))).
Qed.

(** C7.  A chain of operators of one level is evaluated from left to right:
    the text [f0 o1 f1 ... on fn] with all [oi] among [*] and [/], or all
    among [+] and [-], evaluates to [(..((f0 o1 f1) o2 f2)..) on fn]; in
    particular "8/4/2" evaluates to 1 and not to 4; and [performOperation]
    takes [b] from the top of the operand stack, [a] below it, and pushes
    [a / b]. *)
Theorem left_to_right_chains (fuel : nat) :
  (forall f0 l,
     evaluateExpression (S (S fuel)) (renderMulChain f0 l)
     = Some (Returned (leftToRightMul f0 l))) /\
  (forall f0 l,
     evaluateExpression (S (S fuel)) (renderAddChain f0 l)
     = Some (Returned (leftToRightAdd f0 l))) /\
  evaluateExpression (S (S fuel)) (runes "8/4/2") = Some (Returned 1%float) /\
  evaluateExpression (S (S fuel)) (runes "8/4/2") <> Some (Returned 4%float) /\
  (forall a b nums ops,
     performOperation (mkStacks (b :: a :: nums) (r_slash :: ops))
     = mkStacks (PrimFloat.div a b :: nums) ops).
Proof.
  assert (M : forall f0 l,
             evaluateExpression (S (S fuel)) (renderMulChain f0 l)
             = Some (Returned (leftToRightMul f0 l))).
  { intros f0 l. unfold renderMulChain, leftToRightMul.
    change (valueFactor f0) with (valueTerm (TFactor f0)).
    rewrite <- valueTerm_mulChain.
    change (renderFactor f0) with (renderTerm (TFactor f0)).
    rewrite <- renderTerm_mulChain.
    apply (evaluate_render fuel (ETerm _)). }
  split; [exact M|]. split.
  { intros f0 l. unfold renderAddChain, leftToRightAdd.
    change (valueFactor f0) with (value (ETerm (TFactor f0))).
    rewrite <- value_addChain.
    change (renderFactor f0) with (render (ETerm (TFactor f0))).
    rewrite <- render_addChain.
    apply evaluate_render. }
  assert (E : evaluateExpression (S (S fuel)) (runes "8/4/2")
              = Some (Returned 1%float)).
  { change (runes "8/4/2")
      with (renderMulChain (FDigit D8) [(Divide, FDigit D4); (Divide, FDigit D2)]).
    rewrite M. reflexivity. }
  split; [exact E|]. split.
  { rewrite E. intros H. apply Returned_inj in H.
    revert H. apply float_neq; reflexivity. }
  intros a b nums ops. reflexivity.
Qed.

(** C10.  A character that is none of [+ - * / ( )] is handled by the
    default case: the one-character string is parsed as a number, the parse
    error is dropped, and the number is pushed on the operand stack; a digit
    pushes its value, and any other such character pushes 0. *)
Theorem operand_characters (fuel : nat) (char : rune) (st : stacks) :
  isSpecial char = false ->
  scanChar fuel char st = Some (pushOperand (fst (ParseFloat char)) st) /\
  (isDigit char = true ->
     ParseFloat char = (PrimFloat.of_uint63 (Uint63.of_Z (char - 48)), None)) /\
  (forall d, char = digitRune d -> fst (ParseFloat char) = digitValue d) /\
  (isDigit char = false -> ParseFloat char = (0%float, Some ErrSyntax)) /\
  (char <> r_space ->
     evaluateExpression fuel [char] = Some (Returned (fst (ParseFloat char)))).
Proof.
  intros H. split; [apply scanChar_operand; exact H|].
  split; [unfold ParseFloat; intros ->; reflexivity|].
  split; [intros d ->; rewrite ParseFloat_digit; reflexivity|].
  split; [unfold ParseFloat; intros ->; reflexivity|].
  intros Hsp. apply evaluate_operands. simpl. unfold isOperandChar.
  rewrite H. apply Z.eqb_neq in Hsp. rewrite Hsp. reflexivity.
Qed.

Lemma operand_characters_witness :
  scanChar 0 97 emptyStacks = Some (mkStacks [0%float] []) /\
  evaluateExpression 0 (runes "a") = Some (Returned 0%float).
Proof.
  destruct (operand_characters 0 97 emptyStacks eq_refl) as (H1 & _ & _ & _ & H5).
  split; [exact H1 | apply H5; discriminate].
Defined.

(* ================================================================== *)
(** * Reading a result *)

(** The claim of C4 fails in two places.  The identifier is read as a
    position: after [racingSubmissions] both tasks have the identifier 1,
    and the request for the identifier 2, which no task has, is answered
    202.  And a completed task whose Result is not a finite number has no
    JSON text: after "1/0" has been served the request for its result is
    answered 200 with an empty body. *)
Lemma result_request_counterexample :
  (exists st,
     run initial racingSubmissions = Some st /\
     map ID (tasks st) = [1; 1] /\
     getTaskResultHandler "/tasks/2/result" (tasks st)
     = mkResponse 202 (JSONStatus "Task is not completed yet")) /\
  (exists st,
     run initial serveDivisionByZero = Some st /\
     tasks st = [mkTask 1 (runes "1/0") "completed" infinity 0] /\
     getTaskResultHandler "/tasks/1/result" (tasks st)
     = mkResponse 200 EmptyBody).
Proof.
  split.
  - eexists. split; [vm_compute; reflexivity|]. split; reflexivity.
  - eexists. split; [vm_compute; reflexivity|]. split; reflexivity.
Qed.

(** C4, amended.  GET /tasks/{id}/result answers 400 when the id segment is
    not an integer.  Otherwise the identifier is read as a position in the
    list, counted from 1: the answer is 404 when it is outside the list
    (which, where identifiers follow positions, is whenever no task has
    that identifier); 202 with the status text "Task is not completed yet"
    and no result when the task at that position is not completed; 200
    with the Result of that task when it is completed and its Result is a
    finite number; and 200 with an empty body when it is completed and
    its Result is infinite or not a number. *)
Theorem getTaskResultHandler_responses (URLPath : string) (tasks : list Task) :
  let segment := firstSegment (TrimPrefix URLPath "/tasks/") in
  let answer := getTaskResultHandler URLPath tasks in
  (Atoi segment = None ->
     answer = mkResponse 400 (PlainText "Invalid task ID")) /\
  (forall taskID, Atoi segment = Some taskID ->
     taskID < 1 \/ Z.of_nat (length tasks) < taskID ->
     answer = mkResponse 404 (PlainText "Task not found")) /\
  (forall taskID, Atoi segment = Some taskID ->
     (forall p t, tasks !! p = Some t -> ID t = Z.of_nat p + 1) ->
     (forall t, t ∈ tasks -> ID t <> taskID) ->
     answer = mkResponse 404 (PlainText "Task not found")) /\
  (forall taskID task, Atoi segment = Some taskID -> 1 <= taskID ->
     tasks !! Z.to_nat (taskID - 1) = Some task ->
     Status task <> "completed"%string ->
     answer = mkResponse 202 (JSONStatus "Task is not completed yet")) /\
  (forall taskID task, Atoi segment = Some taskID -> 1 <= taskID ->
     tasks !! Z.to_nat (taskID - 1) = Some task ->
     Status task = "completed"%string ->
     jsonEncodable (Result task) = true ->
     answer = mkResponse 200 (JSONResult (Result task))) /\
  (forall taskID task, Atoi segment = Some taskID -> 1 <= taskID ->
     tasks !! Z.to_nat (taskID - 1) = Some task ->
     Status task = "completed"%string ->
     jsonEncodable (Result task) = false ->
     answer = mkResponse 200 EmptyBody).
Proof.
  intros segment answer. subst answer. unfold getTaskResultHandler.
  fold segment.
  assert (OUT : forall taskID,
     taskID < 1 \/ Z.of_nat (length tasks) < taskID ->
     (taskID <? 1) || (taskID >? Z.of_nat (length tasks)) = true).
  { intros taskID Hout. apply orb_true_iff.
    destruct Hout as [H|H]; [left; apply Z.ltb_lt; exact H|].
    right. rewrite Z.gtb_ltb. apply Z.ltb_lt. exact H. }
  assert (IN : forall taskID task, 1 <= taskID ->
     tasks !! Z.to_nat (taskID - 1) = Some task ->
     (taskID <? 1) || (taskID >? Z.of_nat (length tasks)) = false).
  { intros taskID task H1 Hl. apply lookup_lt_Some in Hl.
    apply orb_false_iff. split; [apply Z.ltb_ge; lia|].
    rewrite Z.gtb_ltb. apply Z.ltb_ge. lia. }
  split; [intros ->; reflexivity|].
  split; [intros taskID -> Hout; rewrite (OUT _ Hout); reflexivity|].
  split.
  { intros taskID -> Hpos Hno.
    rewrite OUT; [reflexivity|].
    destruct (Z_lt_dec taskID 1) as [|H1]; [left; assumption|].
    destruct (Z_lt_dec (Z.of_nat (length tasks)) taskID) as [|H2];
      [right; assumption|].
    exfalso.
    destruct (lookup_lt_is_Some_2 tasks (Z.to_nat (taskID - 1))) as [t Ht];
      [lia|].
    apply (Hno t); [eapply list_elem_of_lookup_2; exact Ht|].
    rewrite (Hpos _ _ Ht). lia. }
  split; [|split].
  - intros taskID task -> H1 Hl Hs. rewrite (IN _ _ H1 Hl), Hl.
    apply String.eqb_neq in Hs. rewrite Hs. reflexivity.
  - intros taskID task -> H1 Hl Hs He. rewrite (IN _ _ H1 Hl), Hl.
    apply String.eqb_eq in Hs. rewrite Hs, He. reflexivity.
  - intros taskID task -> H1 Hl Hs He. rewrite (IN _ _ H1 Hl), Hl.
    apply String.eqb_eq in Hs. rewrite Hs, He. reflexivity.
Qed.

(** The answers at concrete requests. *)
Lemma getTaskResultHandler_responses_witness :
  getTaskResultHandler "/tasks/x/result" []
    = mkResponse 400 (PlainText "Invalid task ID") /\
  getTaskResultHandler "/tasks/2/result" [mkTask 1 (runes "7") "queued" 0%float 0]
    = mkResponse 404 (PlainText "Task not found") /\
  getTaskResultHandler "/tasks/1/result" [mkTask 1 (runes "7") "calculated" 0%float 0]
    = mkResponse 202 (JSONStatus "Task is not completed yet") /\
  getTaskResultHandler "/tasks/1/result" [mkTask 1 (runes "7") "completed" 7%float 0]
    = mkResponse 200 (JSONResult 7%float) /\
  getTaskResultHandler "/tasks/1/result"
    [mkTask 1 (runes "1/0") "completed" infinity 0]
    = mkResponse 200 EmptyBody.
Proof.
  split; [|split; [|split; [|split]]].
  - apply (proj1 (getTaskResultHandler_responses "/tasks/x/result" [])).
    reflexivity.
  - apply (proj1 (proj2 (getTaskResultHandler_responses "/tasks/2/result"
             [mkTask 1 (runes "7") "queued" 0%float 0])) 2);
      [reflexivity | right; simpl; lia].
  - apply (proj1 (proj2 (proj2 (proj2 (getTaskResultHandler_responses
             "/tasks/1/result" [mkTask 1 (runes "7") "calculated" 0%float 0]))))
             1 (mkTask 1 (runes "7") "calculated" 0%float 0));
      [reflexivity | lia | reflexivity | discriminate].
  - apply (proj1 (proj2 (proj2 (proj2 (proj2 (getTaskResultHandler_responses
             "/tasks/1/result" [mkTask 1 (runes "7") "completed" 7%float 0])))))
             1 (mkTask 1 (runes "7") "completed" 7%float 0));
      [reflexivity | lia | reflexivity | reflexivity | reflexivity].
  - apply (proj2 (proj2 (proj2 (proj2 (proj2 (getTaskResultHandler_responses
             "/tasks/1/result"
             [mkTask 1 (runes "1/0") "completed" infinity 0])))))
             1 (mkTask 1 (runes "1/0") "completed" infinity 0));
      [reflexivity | lia | reflexivity | reflexivity | reflexivity].
Defined.

(* ================================================================== *)
(** * The goroutines *)

Lemma step_transition st ev st' : step st ev = Some st' -> transition st st'.
Proof.
  unfold step. destruct (crashed st); [discriminate|].
  destruct ev as [body|i|j fuel].
  - intros [= <-]. constructor.
  - unfold addTaskHandler.
    destruct (handlers st !! i) as [[task|task|task|task|p|p|p id]|] eqn:Hf;
      try discriminate.
    + intros [= <-]. econstructor; eassumption.
    + intros [= <-]. econstructor; eassumption.
    + intros [= <-]. econstructor; eassumption.
    + intros [= <-]. econstructor; eassumption.
    + destruct (length (taskChannel st) <? taskChannelCap)%nat eqn:Hc;
        [|discriminate].
      intros [= <-]. apply Nat.ltb_lt in Hc. econstructor; eassumption.
    + destruct (tasks st !! p) as [task|] eqn:Ht; [|discriminate].
      intros [= <-]. econstructor; eassumption.
  - unfold agentStep.
    destruct (agents st !! j) as [[|p|p|p]|] eqn:Ha; try discriminate.
    + destruct (taskChannel st) as [|p rest] eqn:Hc; [discriminate|].
      intros [= <-]. econstructor; eassumption.
    + intros [= <-]. econstructor; eassumption.
    + destruct (tasks st !! p) as [task|] eqn:Ht; [|discriminate].
      destruct (evaluateExpression fuel (Expression task)) as [[v|]|] eqn:He;
        [| |discriminate].
      * intros [= <-]. econstructor; eassumption.
      * intros [= <-]. econstructor; eassumption.
    + intros [= <-]. econstructor; eassumption.
Qed.

(** A property of the initial state that every statement preserves holds
    after every run. *)
Lemma run_invariant (P : state -> Prop) :
  (forall st st', transition st st' -> P st -> P st') ->
  forall evs st0 st, P st0 -> run st0 evs = Some st -> P st.
Proof.
  intros Hstep. induction evs as [|ev evs IH]; intros st0 st H0; simpl.
  - intros [= <-]. exact H0.
  - destruct (step st0 ev) as [st1|] eqn:E; [|discriminate].
    apply IH. eapply Hstep; [eapply step_transition; exact E | exact H0].
Qed.

Lemma runExclusive_invariant (P : state -> Prop) :
  (forall st st', transition st st' -> exclusive st' = true -> P st -> P st') ->
  forall evs st0 st, P st0 -> runExclusive st0 evs = Some st -> P st.
Proof.
  intros Hstep. induction evs as [|ev evs IH]; intros st0 st H0; simpl.
  - intros [= <-]. exact H0.
  - destruct (step st0 ev) as [st1|] eqn:E; [|discriminate].
    destruct (exclusive st1) eqn:X; [|discriminate].
    apply IH. eapply Hstep; [eapply step_transition; exact E | exact X | exact H0].
Qed.

Lemma runExclusive_run evs : forall st0 st,
  runExclusive st0 evs = Some st -> run st0 evs = Some st.
Proof.
  induction evs as [|ev evs IH]; intros st0 st; simpl; [auto|].
  destruct (step st0 ev) as [st1|]; [|discriminate].
  destruct (exclusive st1); [apply IH|discriminate].
Qed.

(** *** Lists updated at one index *)

Lemma insert_decompose {A} (l : list A) i x :
  l !! i = Some x ->
  exists l1 l2, l = l1 ++ x :: l2 /\ forall y, <[i:=y]> l = l1 ++ y :: l2.
Proof.
  intros H. exists (take i l), (drop (S i) l). split.
  - symmetry. apply take_drop_middle. exact H.
  - intros y. apply insert_take_drop. eapply lookup_lt_Some. exact H.
Qed.

Lemma omap_insert_perm {A B} (g : A -> option B) (l : list A) i x :
  l !! i = Some x ->
  exists R, omap g l ≡ₚ option_list (g x) ++ R /\
            forall y, omap g (<[i:=y]> l) ≡ₚ option_list (g y) ++ R.
Proof.
  intros H. destruct (insert_decompose l i x H) as (l1 & l2 & -> & Hins).
  exists (omap g l1 ++ omap g l2). split.
  - rewrite omap_app. simpl. destruct (g x); simpl.
    + rewrite Permutation_middle. reflexivity.
    + reflexivity.
  - intros y. rewrite Hins, omap_app. simpl. destruct (g y); simpl.
    + rewrite Permutation_middle. reflexivity.
    + reflexivity.
Qed.

Lemma omap_insert_same {A B} (g : A -> option B) (l : list A) i x y :
  l !! i = Some x -> g y = g x -> omap g (<[i:=y]> l) = omap g l.
Proof.
  intros H E. destruct (insert_decompose l i x H) as (l1 & l2 & -> & Hins).
  rewrite Hins, !omap_app. simpl. rewrite E. reflexivity.
Qed.
Lemma statusAt_app l k c : statusAt l c -> statusAt (l ++ k) c.
Proof.
  intros (t & Ht & Hs). exists t. split; [|exact Hs].
  apply lookup_app_l_Some. exact Ht.
Qed.

Lemma statusAt_lt l c : statusAt l c -> (c.1 < length l)%nat.
Proof. intros (t & Ht & _). eapply lookup_lt_Some. exact Ht. Qed.

Lemma statusAt_alter_ne l g p c :
  c.1 <> p -> statusAt l c -> statusAt (alter g p l) c.
Proof.
  intros Hne (t & Ht & Hs). exists t. split; [|exact Hs].
  rewrite list_lookup_alter_ne by congruence. exact Ht.
Qed.

Lemma statusAt_alter_status l p s s' :
  statusAt l (p, s) -> statusAt (alter (setStatus s') p l) (p, s').
Proof.
  intros (t & Ht & Hs). exists (setStatus s' t). split; [|reflexivity].
  simpl in *. rewrite list_lookup_alter_eq, Ht. reflexivity.
Qed.

Lemma statusAt_alter_result l v p c :
  statusAt l c -> statusAt (alter (setResult v) p l) c.
Proof.
  intros (t & Ht & Hs). destruct (decide (c.1 = p)) as [<-|Hne].
  - exists (setResult v t). split; [|exact Hs].
    rewrite list_lookup_alter_eq, Ht. reflexivity.
  - exists t. split; [|exact Hs].
    rewrite list_lookup_alter_ne by congruence. exact Ht.
Qed.

Lemma H52_insert (hs : list handlerFrame) i f :
  (forall i task, hs !! i = Some (H52 task) -> Status task = "queued"%string) ->
  (forall task, f = H52 task -> Status task = "queued"%string) ->
  forall i' task, <[i:=f]> hs !! i' = Some (H52 task) ->
                  Status task = "queued"%string.
Proof.
  intros Hold Hnew i' task H.
  apply list_lookup_insert_Some in H as [(_ & E & _) | (_ & H)].
  - apply Hnew. exact E.
  - eapply Hold. exact H.
Qed.

Lemma claims_alter (l : list Task) g p s (C : list (nat * string)) :
  NoDup ((p, s) :: C).*1 -> Forall (statusAt l) C ->
  Forall (statusAt (alter g p l)) C.
Proof.
  intros ND FA. apply Forall_forall. intros c Hc.
  apply statusAt_alter_ne; [|eapply Forall_forall; eassumption].
  intros E. simpl in ND. apply NoDup_cons in ND as [Hp _]. apply Hp.
  rewrite <- E. apply list_elem_of_fmap_2. exact Hc.
Qed.

Ltac perm_solve :=
  repeat rewrite <- app_assoc; simpl;
  repeat rewrite <- Permutation_middle; reflexivity.

Lemma lifecycle_step st st' :
  transition st st' -> lifecycleInv st -> lifecycleInv st'.
Proof.
  intros T (ND & FA & HQ). unfold lifecycleInv, claims in *.
  destruct T; simpl.
  - (* submit *)
    rewrite omap_app. simpl. rewrite app_nil_r.
    split; [exact ND|]. split; [exact FA|].
    intros i task H. apply lookup_app_Some in H as [H | (_ & H)].
    + eapply HQ. exact H.
    + apply list_lookup_singleton_Some in H as [_ H]. discriminate H.
  - (* 48 *)
    rewrite (omap_insert_same handlerClaim _ _ _ _ H) by reflexivity.
    split; [exact ND|]. split; [exact FA|].
    apply H52_insert; [exact HQ | discriminate].
  - (* 49 *)
    rewrite (omap_insert_same handlerClaim _ _ _ _ H) by reflexivity.
    split; [exact ND|]. split; [exact FA|].
    apply H52_insert; [exact HQ | discriminate].
  - (* 50 *)
    rewrite (omap_insert_same handlerClaim _ _ _ _ H) by reflexivity.
    split; [exact ND|]. split; [exact FA|].
    apply H52_insert; [exact HQ | intros t [= <-]; reflexivity].
  - (* 52 *)
    destruct (omap_insert_perm handlerClaim _ _ _ H) as (R & HR & HR').
    simpl in HR. specialize (HR' (H55 (length (tasks st)))). simpl in HR'.
    rewrite <- HR in HR'. clear HR R.
    rewrite HR'. simpl.
    split; [|split].
    + apply NoDup_cons. split; [|exact ND].
      intros Hin. apply list_elem_of_fmap in Hin as (c & E & Hc).
      eapply Forall_forall in FA; [|exact Hc].
      apply statusAt_lt in FA. rewrite <- E in FA. lia.
    + apply Forall_cons. split.
      * exists task. split; [apply list_lookup_middle; reflexivity|].
        eapply HQ. exact H.
      * eapply Forall_impl; [exact FA|]. intros c. apply statusAt_app.
    + apply H52_insert; [exact HQ | discriminate].
  - (* 55 *)
    destruct (omap_insert_perm handlerClaim _ _ _ H) as (R & HR & HR').
    simpl in HR. specialize (HR' (H57 p)). simpl in HR'.
    assert (P : omap handlerClaim (<[i:=H57 p]> (handlers st))
                ++ ((fun p => (p, "queued"%string)) <$> taskChannel st ++ [p])
                ++ omap agentClaim (agents st)
                ≡ₚ omap handlerClaim (handlers st)
                ++ ((fun p => (p, "queued"%string)) <$> taskChannel st)
                ++ omap agentClaim (agents st)).
    { rewrite HR, HR', fmap_app. perm_solve. }
    rewrite P. split; [exact ND|]. split; [exact FA|].
    apply H52_insert; [exact HQ | discriminate].
  - (* 57 *)
    rewrite (omap_insert_same handlerClaim _ _ _ _ H) by reflexivity.
    split; [exact ND|]. split; [exact FA|].
    apply H52_insert; [exact HQ | discriminate].
  - (* 99 *)
    destruct (omap_insert_perm agentClaim _ _ _ H) as (R & HR & HR').
    simpl in HR. specialize (HR' (A100 p)). simpl in HR'.
    rewrite H0 in ND, FA.
    assert (P : omap handlerClaim (handlers st)
                ++ ((fun p => (p, "queued"%string)) <$> rest)
                ++ omap agentClaim (<[j:=A100 p]> (agents st))
                ≡ₚ omap handlerClaim (handlers st)
                ++ ((fun p => (p, "queued"%string)) <$> p :: rest)
                ++ omap agentClaim (agents st)).
    { rewrite HR, HR'. perm_solve. }
    rewrite P. split; [exact ND|]. split; [exact FA|]. exact HQ.
  - (* 100 *)
    destruct (omap_insert_perm agentClaim _ _ _ H) as (R & HR & HR').
    simpl in HR. specialize (HR' (A103 p)). simpl in HR'.
    set (C := omap handlerClaim (handlers st)
              ++ ((fun p => (p, "queued"%string)) <$> taskChannel st) ++ R).
    assert (P : omap handlerClaim (handlers st)
                ++ ((fun p => (p, "queued"%string)) <$> taskChannel st)
                ++ omap agentClaim (agents st) ≡ₚ (p, "queued"%string) :: C).
    { rewrite HR. unfold C. perm_solve. }
    assert (P' : omap handlerClaim (handlers st)
                ++ ((fun p => (p, "queued"%string)) <$> taskChannel st)
                ++ omap agentClaim (<[j:=A103 p]> (agents st))
                ≡ₚ (p, "calculated"%string) :: C).
    { rewrite HR'. unfold C. perm_solve. }
    rewrite P in ND, FA. rewrite P'.
    apply Forall_cons in FA as [FA1 FA2].
    split; [exact ND|]. split; [|exact HQ].
    apply Forall_cons. split.
    + eapply statusAt_alter_status. exact FA1.
    + eapply claims_alter; eassumption.
  - (* 103 *)
    rewrite (omap_insert_same agentClaim _ _ _ _ H) by reflexivity.
    split; [exact ND|]. split; [|exact HQ].
    eapply Forall_impl; [exact FA|]. intros c. apply statusAt_alter_result.
  - (* 103, panic *)
    split; [exact ND|]. split; [exact FA|exact HQ].
  - (* 106 *)
    destruct (omap_insert_perm agentClaim _ _ _ H) as (R & HR & HR').
    simpl in HR. specialize (HR' A99). simpl in HR'.
    set (C := omap handlerClaim (handlers st)
              ++ ((fun p => (p, "queued"%string)) <$> taskChannel st) ++ R).
    assert (P : omap handlerClaim (handlers st)
                ++ ((fun p => (p, "queued"%string)) <$> taskChannel st)
                ++ omap agentClaim (agents st) ≡ₚ (p, "calculated"%string) :: C).
    { rewrite HR. unfold C. perm_solve. }
    rewrite P in ND, FA. rewrite HR'. fold C.
    apply Forall_cons in FA as [FA1 FA2].
    split; [|split; [|exact HQ]].
    + simpl in ND. apply NoDup_cons in ND as [_ ND]. exact ND.
    + eapply claims_alter; eassumption.
Qed.

(* ================================================================== *)
(** * The life cycle of a task *)

Lemma claim_of_agent st j a c :
  agents st !! j = Some a -> agentClaim a = Some c -> c ∈ claims st.
Proof.
  intros Ha Hc. unfold claims. rewrite !elem_of_app. right. right.
  apply list_elem_of_omap. exists a. split; [|exact Hc].
  eapply list_elem_of_lookup_2. exact Ha.
Qed.

Lemma status_of_agent st j a p s t :
  lifecycleInv st -> agents st !! j = Some a -> agentClaim a = Some (p, s) ->
  tasks st !! p = Some t -> Status t = s.
Proof.
  intros (_ & FA & _) Ha Hc Ht.
  eapply Forall_forall in FA; [|eapply claim_of_agent; eassumption].
  destruct FA as (t' & Ht' & Hs). simpl in *. congruence.
Qed.

Lemma lookup_alter_Some {A} (g : A -> A) (l : list A) p q t' :
  alter g p l !! q = Some t' ->
  exists t, l !! q = Some t /\ (t' = t \/ (q = p /\ t' = g t)).
Proof.
  destruct (decide (p = q)) as [<-|Hne].
  - rewrite list_lookup_alter_eq. destruct (l !! p) as [t|]; [|discriminate].
    intros [= <-]. exists t. auto.
  - rewrite list_lookup_alter_ne by exact Hne. intros H. exists t'. auto.
Qed.

Lemma lookup_alter_of {A} (g : A -> A) (l : list A) p q t :
  l !! q = Some t ->
  exists t', alter g p l !! q = Some t' /\ (t' = t \/ (q = p /\ t' = g t)).
Proof.
  intros H. destruct (decide (p = q)) as [<-|Hne].
  - exists (g t). rewrite list_lookup_alter_eq, H. auto.
  - exists t. rewrite list_lookup_alter_ne by exact Hne. auto.
Qed.

(** One statement leaves the status of a task as it is or moves it one
    state forward; the identifier and the expression stay. *)
Lemma progress_transition st st' :
  transition st st' -> lifecycleInv st ->
  forall p t, tasks st !! p = Some t ->
  exists t', tasks st' !! p = Some t' /\
             ID t' = ID t /\ Expression t' = Expression t /\
             (Status t' = Status t \/ statusNext (Status t) (Status t')).
Proof.
  intros T Inv p t Ht.
  destruct T; simpl; try (exists t; auto; fail).
  - exists t. split; [apply lookup_app_l_Some; exact Ht | auto].
  - destruct (lookup_alter_of (setStatus "calculated") _ p0 _ _ Ht)
      as (t' & Ht' & [E | (Ep & E)]); exists t'; subst t'; [auto|].
    subst p0. split; [exact Ht'|]. simpl. split; [reflexivity|].
    split; [reflexivity|]. right.
    rewrite (status_of_agent st j (A100 p) p "queued" t Inv H eq_refl Ht).
    constructor.
  - destruct (lookup_alter_of (setResult v) _ p0 _ _ Ht)
      as (t' & Ht' & [E | (Ep & E)]); exists t'; subst t'; auto.
  - destruct (lookup_alter_of (setStatus "completed") _ p0 _ _ Ht)
      as (t' & Ht' & [E | (Ep & E)]); exists t'; subst t'; [auto|].
    subst p0. split; [exact Ht'|]. simpl. split; [reflexivity|].
    split; [reflexivity|]. right.
    rewrite (status_of_agent st j (A106 p) p "calculated" t Inv H eq_refl Ht).
    constructor.
Qed.

(** A task enters the list with the status "queued". *)
Lemma created_queued st st' :
  transition st st' -> lifecycleInv st ->
  forall p t', tasks st !! p = None -> tasks st' !! p = Some t' ->
  Status t' = "queued"%string.
Proof.
  intros T (_ & _ & HQ) p t' Hn Ht'.
  destruct T; simpl in Ht'; try congruence.
  - apply lookup_app_Some in Ht' as [Ht' | (_ & Ht')]; [congruence|].
    apply list_lookup_singleton_Some in Ht' as [_ <-]. eapply HQ. eassumption.
  - apply lookup_alter_Some in Ht' as (t & Ht & _). congruence.
  - apply lookup_alter_Some in Ht' as (t & Ht & _). congruence.
  - apply lookup_alter_Some in Ht' as (t & Ht & _). congruence.
Qed.

Lemma statusRank_next s s' :
  statusNext s s' -> (statusRank s < statusRank s')%nat.
Proof. intros []; unfold statusRank; simpl; lia. Qed.

Lemma lifecycle_initial : lifecycleInv initial.
Proof.
  unfold lifecycleInv, claims. simpl. split; [constructor|].
  split; [constructor|]. intros i task H. discriminate H.
Qed.

Lemma lifecycle_run evs st : run initial evs = Some st -> lifecycleInv st.
Proof.
  apply (run_invariant lifecycleInv lifecycle_step).
  exact lifecycle_initial.
Qed.

(** Over any number of statements the status moves along
    queued, calculated, completed. *)
Lemma progress_run evs : forall st st',
  lifecycleInv st -> run st evs = Some st' ->
  forall p t, tasks st !! p = Some t ->
  exists t', tasks st' !! p = Some t' /\
             ID t' = ID t /\ Expression t' = Expression t /\
             rtc statusNext (Status t) (Status t').
Proof.
  induction evs as [|ev evs IH]; intros st st' Inv; simpl.
  - intros [= <-] p t Ht. exists t. repeat split; auto. constructor.
  - destruct (step st ev) as [st1|] eqn:E; [|discriminate].
    intros Hrun p t Ht. apply step_transition in E.
    destruct (progress_transition _ _ E Inv p t Ht) as (t1 & Ht1 & Hi & He & Hs).
    destruct (IH st1 st' (lifecycle_step _ _ E Inv) Hrun p t1 Ht1)
      as (t' & Ht' & Hi' & He' & Hs').
    exists t'. split; [exact Ht'|]. split; [congruence|]. split; [congruence|].
    destruct Hs as [Hs|Hs].
    + rewrite <- Hs. exact Hs'.
    + eapply rtc_l; eassumption.
Qed.

Lemma statusRank_rtc s s' :
  rtc statusNext s s' -> (statusRank s <= statusRank s')%nat.
Proof.
  induction 1 as [|s1 s2 s3 H _ IH]; [lia|].
  apply statusRank_next in H. lia.
Qed.

(* ================================================================== *)
(** * The channel *)

Lemma channel_step st st' :
  transition st st' -> channelInv st -> channelInv st'.
Proof.
  intros T (Hs & Hl). unfold channelInv.
  destruct T; simpl; try (split; assumption).
  - rewrite Hs, length_app, app_assoc. simpl. split; [reflexivity|lia].
  - rewrite Hs, H0, <- app_assoc. simpl. split; [reflexivity|].
    rewrite H0 in Hl. simpl in Hl. lia.
Qed.

Lemma channel_run evs st : run initial evs = Some st -> channelInv st.
Proof.
  apply (run_invariant channelInv channel_step).
  split; [reflexivity | simpl; lia].
Qed.

(** *** Positions *)

Lemma positions_step st st' :
  transition st st' -> positionsInv st -> positionsInv st'.
Proof.
  intros T (ND & FA). unfold positionsInv in *.
  destruct T; simpl;
    try (rewrite (omap_insert_same handlerPos _ _ _ _ H) by reflexivity);
    try rewrite length_alter; try (split; assumption).
  - rewrite omap_app. simpl. rewrite app_nil_r. split; assumption.
  - destruct (omap_insert_perm handlerPos _ _ _ H) as (R & HR & HR').
    simpl in HR. specialize (HR' (H55 (length (tasks st)))). simpl in HR'.
    rewrite <- HR in HR'. rewrite HR', length_app. simpl. split.
    + apply NoDup_cons. split; [|exact ND]. intros Hin.
      eapply Forall_forall in FA; [|exact Hin]. lia.
    + apply Forall_cons. split; [lia|].
      eapply Forall_impl; [exact FA|]. simpl. intros; lia.
Qed.

Lemma positions_run evs st : run initial evs = Some st -> positionsInv st.
Proof.
  apply (run_invariant positionsInv positions_step).
  split; simpl; constructor.
Qed.

Lemma omap_NoDup_index {A B} (g : A -> option B) (l : list A) i j x y z :
  NoDup (omap g l) -> l !! i = Some x -> l !! j = Some y ->
  g x = Some z -> g y = Some z -> i = j.
Proof.
  revert i j. induction l as [|a l IH]; intros i j ND Hi Hj Hx Hy.
  - discriminate Hi.
  - simpl in ND. destruct i as [|i], j as [|j]; simpl in Hi, Hj.
    + reflexivity.
    + injection Hi as ->. rewrite Hx in ND. apply NoDup_cons in ND as [Hn _].
      exfalso. apply Hn. apply list_elem_of_omap. exists y.
      split; [eapply list_elem_of_lookup_2; exact Hj | exact Hy].
    + injection Hj as ->. rewrite Hy in ND. apply NoDup_cons in ND as [Hn _].
      exfalso. apply Hn. apply list_elem_of_omap. exists x.
      split; [eapply list_elem_of_lookup_2; exact Hi | exact Hx].
    + f_equal. apply IH; try assumption.
      destruct (g a); [apply NoDup_cons in ND as [_ ND]|]; exact ND.
Qed.

(** *** Identifiers *)

Lemma wrapInt_small z : minInt <= z <= maxInt -> wrapInt z = z.
Proof.
  unfold wrapInt, minInt, maxInt. intros H.
  rewrite Z.mod_small by lia. lia.
Qed.

Lemma wrapInt_succ z : wrapInt (wrapInt z + 1) = wrapInt (z + 1).
Proof.
  unfold wrapInt. f_equal.
  replace ((z + 2 ^ 63) mod 2 ^ 64 - 2 ^ 63 + 1 + 2 ^ 63)
    with ((z + 2 ^ 63) mod 2 ^ 64 + 1) by lia.
  replace (z + 1 + 2 ^ 63) with ((z + 2 ^ 63) + 1) by lia.
  rewrite Zplus_mod_idemp_l. reflexivity.
Qed.

Lemma filter_insert_count {A} (l : list A) i x :
  l !! i = Some x ->
  exists l1 l2,
    (forall P, length (List.filter P l)
               = (length (List.filter P l1) + Nat.b2n (P x)
                  + length (List.filter P l2))%nat) /\
    (forall P y, length (List.filter P (<[i:=y]> l))
                 = (length (List.filter P l1) + Nat.b2n (P y)
                    + length (List.filter P l2))%nat).
Proof.
  intros H. destruct (insert_decompose l i x H) as (l1 & l2 & -> & Hins).
  exists l1, l2. split.
  - intros P. rewrite List.filter_app, length_app. simpl.
    destruct (P x); simpl; lia.
  - intros P y. rewrite Hins, List.filter_app, length_app. simpl.
    destruct (P y); simpl; lia.
Qed.

Lemma incremented_critical l :
  (length (List.filter incremented l) <= length (List.filter critical l))%nat.
Proof.
  induction l as [|f l IH]; simpl; [lia|].
  destruct f; simpl; lia.
Qed.

Lemma filter_count_elem {A} (P : A -> bool) (l : list A) i x :
  l !! i = Some x -> P x = true -> (1 <= length (List.filter P l))%nat.
Proof.
  intros H Hp. destruct (filter_insert_count l i x H) as (l1 & l2 & E & _).
  rewrite (E P), Hp. simpl. lia.
Qed.

(** With at most one handler inside lines 48 to 52, two critical frames are
    the same frame. *)
Lemma exclusive_unique (l : list handlerFrame) i j x y :
  (length (List.filter critical l) <= 1)%nat ->
  l !! i = Some x -> critical x = true ->
  l !! j = Some y -> critical y = true -> i = j.
Proof.
  intros Hex Hi Hx Hj Hy. destruct (decide (i = j)) as [|Hne]; [assumption|].
  exfalso.
  destruct (filter_insert_count l i x Hi) as (l1 & l2 & E & E').
  specialize (E critical). specialize (E' critical (H48 (mkTask 0 [] "" 0%float 0))).
  rewrite Hx in E. simpl in E, E'.
  assert (Hj' : <[i:=H48 (mkTask 0 [] "" 0%float 0)]> l !! j = Some y)
    by (rewrite list_lookup_insert_ne by exact Hne; exact Hj).
  pose proof (filter_count_elem critical _ _ _ Hj' Hy). lia.
Qed.

Lemma frameTask_critical f t : frameTask f = Some t -> critical f = true.
Proof. destruct f; simpl; congruence. Qed.

Lemma lookup_alter_ID (g : Task -> Task) (l : list Task) p q t' :
  (forall t, ID (g t) = ID t) ->
  alter g p l !! q = Some t' -> exists t, l !! q = Some t /\ ID t' = ID t.
Proof.
  intros Hg H. apply lookup_alter_Some in H as (t & Ht & [-> | (_ & ->)]);
    exists t; auto.
Qed.

Lemma registry_step st st' :
  transition st st' -> exclusive st' = true -> registryInv st -> registryInv st'.
Proof.
  intros T X' (X & R1 & R2 & R3 & R4). unfold registryInv.
  split; [exact X'|]. unfold exclusive in X, X'.
  apply Nat.leb_le in X. apply Nat.leb_le in X'.
  destruct T; simpl in *.
  - (* submit *)
    rewrite List.filter_app, length_app. simpl. rewrite Nat.add_0_r.
    split; [exact R1|]. split; [|split; [exact R3|]].
    + intros i f t Hf Ht. apply lookup_app_Some in Hf as [Hf | (_ & Hf)].
      * eapply R2; eassumption.
      * apply list_lookup_singleton_Some in Hf as [_ <-]. discriminate Ht.
    + intros i p id Hf. apply lookup_app_Some in Hf as [Hf | (_ & Hf)].
      * eapply R4; eassumption.
      * apply list_lookup_singleton_Some in Hf as [_ Hf]. discriminate Hf.
  - (* 48 *)
    destruct (filter_insert_count _ _ _ H) as (l1 & l2 & E & E').
    pose proof (E critical) as Ec. pose proof (E incremented) as Ei.
    pose proof (E' critical (H49 (setID (nextTaskID st) task))) as Ec'.
    pose proof (E' incremented (H49 (setID (nextTaskID st) task))) as Ei'.
    pose proof (incremented_critical l1). pose proof (incremented_critical l2).
    simpl in *.
    split; [exact R1|]. split; [|split].
    + intros i' f t Hf Ht.
      apply list_lookup_insert_Some in Hf as [(_ & <- & _) | (_ & Hf)].
      * injection Ht as <-. simpl. rewrite R3. f_equal; lia.
      * eapply R2; eassumption.
    + rewrite Ei', R3, Ei. f_equal; lia.
    + intros i' p id Hf.
      apply list_lookup_insert_Some in Hf as [(_ & Hf & _) | (_ & Hf)];
        [discriminate Hf | eapply R4; eassumption].
  - (* 49 *)
    destruct (filter_insert_count _ _ _ H) as (l1 & l2 & E & E').
    pose proof (E incremented) as Ei.
    pose proof (E' incremented (H50 task)) as Ei'. simpl in *.
    split; [exact R1|]. split; [|split].
    + intros i' f t Hf Ht.
      apply list_lookup_insert_Some in Hf as [(_ & <- & _) | (_ & Hf)].
      * injection Ht as <-. eapply (R2 i (H49 task)); [exact H | reflexivity].
      * eapply R2; eassumption.
    + rewrite Ei', R3, Ei, wrapInt_succ. f_equal; lia.
    + intros i' p id Hf.
      apply list_lookup_insert_Some in Hf as [(_ & Hf & _) | (_ & Hf)];
        [discriminate Hf | eapply R4; eassumption].
  - (* 50 *)
    destruct (filter_insert_count _ _ _ H) as (l1 & l2 & E & E').
    pose proof (E incremented) as Ei.
    pose proof (E' incremented (H52 (setStatus "queued" task))) as Ei'.
    simpl in *.
    split; [exact R1|]. split; [|split].
    + intros i' f t Hf Ht.
      apply list_lookup_insert_Some in Hf as [(_ & <- & _) | (_ & Hf)].
      * injection Ht as <-. simpl.
        eapply (R2 i (H50 task)); [exact H | reflexivity].
      * eapply R2; eassumption.
    + rewrite Ei', R3, Ei. f_equal; lia.
    + intros i' p id Hf.
      apply list_lookup_insert_Some in Hf as [(_ & Hf & _) | (_ & Hf)];
        [discriminate Hf | eapply R4; eassumption].
  - (* 52 *)
    destruct (filter_insert_count _ _ _ H) as (l1 & l2 & E & E').
    pose proof (E incremented) as Ei.
    pose proof (E' incremented (H55 (length (tasks st)))) as Ei'.
    simpl in *. rewrite length_app. simpl.
    split; [|split; [|split]].
    + intros p t Ht. apply lookup_app_Some in Ht as [Ht | (Hp & Ht)].
      * eapply R1; exact Ht.
      * apply list_lookup_singleton_Some in Ht as [Hp' Et]. subst t.
        replace p with (length (tasks st)) by lia.
        eapply (R2 i (H52 task)); [exact H | reflexivity].
    + intros i' f t Hf Ht.
      apply list_lookup_insert_Some in Hf as [(_ & <- & _) | (Hne & Hf)];
        [discriminate Ht|].
      exfalso. apply Hne.
      eapply (exclusive_unique (handlers st)); try eassumption;
        [reflexivity | eapply frameTask_critical; exact Ht].
    + rewrite Ei', R3, Ei. f_equal; lia.
    + intros i' p id Hf.
      apply list_lookup_insert_Some in Hf as [(_ & Hf & _) | (_ & Hf)];
        [discriminate Hf | eapply R4; eassumption].
  - (* 55 *)
    destruct (filter_insert_count _ _ _ H) as (l1 & l2 & E & E').
    pose proof (E incremented) as Ei.
    pose proof (E' incremented (H57 p)) as Ei'. simpl in *.
    split; [exact R1|]. split; [|split].
    + intros i' f t Hf Ht.
      apply list_lookup_insert_Some in Hf as [(_ & <- & _) | (_ & Hf)];
        [discriminate Ht | eapply R2; eassumption].
    + rewrite Ei', R3, Ei. f_equal; lia.
    + intros i' p' id Hf.
      apply list_lookup_insert_Some in Hf as [(_ & Hf & _) | (_ & Hf)];
        [discriminate Hf | eapply R4; eassumption].
  - (* 57 *)
    destruct (filter_insert_count _ _ _ H) as (l1 & l2 & E & E').
    pose proof (E incremented) as Ei.
    pose proof (E' incremented (HReturned p (ID task))) as Ei'. simpl in *.
    split; [exact R1|]. split; [|split].
    + intros i' f t Hf Ht.
      apply list_lookup_insert_Some in Hf as [(_ & <- & _) | (_ & Hf)];
        [discriminate Ht | eapply R2; eassumption].
    + rewrite Ei', R3, Ei. f_equal; lia.
    + intros i' p' id Hf.
      apply list_lookup_insert_Some in Hf as [(_ & Hf & _) | (_ & Hf)].
      * injection Hf as <- <-. eapply R1. exact H0.
      * eapply R4; eassumption.
  - (* 99 *)
    auto.
  - (* 100 *)
    rewrite length_alter. split; [|auto].
    intros q t' Ht'. apply lookup_alter_ID in Ht' as (t & Ht & ->); auto.
  - (* 103 *)
    rewrite length_alter. split; [|auto].
    intros q t' Ht'. apply lookup_alter_ID in Ht' as (t & Ht & ->); auto.
  - (* 103, panic *)
    auto.
  - (* 106 *)
    rewrite length_alter. split; [|auto].
    intros q t' Ht'. apply lookup_alter_ID in Ht' as (t & Ht & ->); auto.
Qed.

Lemma registry_run evs st :
  runExclusive initial evs = Some st -> registryInv st.
Proof.
  apply (runExclusive_invariant registryInv registry_step).
  unfold registryInv. simpl. split; [reflexivity|].
  split; [intros p t H; discriminate H|].
  split; [intros i f t H; discriminate H|].
  split; [reflexivity|]. intros i p id H. discriminate H.
Qed.

Lemma status_valid_run evs st :
  run initial evs = Some st ->
  forall p t, tasks st !! p = Some t ->
    Status t = "queued"%string \/ Status t = "calculated"%string
    \/ Status t = "completed"%string.
Proof.
  intros Hrun.
  pose (P := fun s : state =>
    lifecycleInv s /\
    forall p t, tasks s !! p = Some t ->
      Status t = "queued"%string \/ Status t = "calculated"%string
      \/ Status t = "completed"%string).
  cut (P st); [intros [_ H]; exact H|].
  apply (run_invariant P) with (evs := evs) (st0 := initial);
    [| |exact Hrun].
  - intros s s' T [Inv V]. split; [eapply lifecycle_step; eassumption|].
    intros p t' Ht'. destruct (tasks s !! p) as [t|] eqn:Ht.
    + destruct (progress_transition _ _ T Inv p t Ht) as (t'' & Ht'' & _ & _ & Hs).
      assert (t'' = t') by congruence. subst t''.
      destruct Hs as [Hs|Hs].
      * rewrite Hs. eapply V. exact Ht.
      * destruct Hs; auto.
    + left. eapply created_queued; eassumption.
  - split; [exact lifecycle_initial|]. intros p t H. discriminate H.
Qed.

(** C3.  The status of a task only moves along queued, calculated,
    completed: a task enters the list with the status "queued", the agent
    that received it from the channel sets "calculated", the agent that has
    written the result sets "completed", and over any run the status never
    goes back. *)
Theorem status_progression (evs : list event) (st : state) :
  run initial evs = Some st ->
  (forall evs' st' p t,
     run st evs' = Some st' -> tasks st !! p = Some t ->
     exists t', tasks st' !! p = Some t'
                /\ rtc statusNext (Status t) (Status t')
                /\ (statusRank (Status t) <= statusRank (Status t'))%nat) /\
  (forall p t, tasks st !! p = Some t ->
     Status t = "queued"%string \/ Status t = "calculated"%string
     \/ Status t = "completed"%string) /\
  (forall ev st' p t',
     step st ev = Some st' -> tasks st !! p = None ->
     tasks st' !! p = Some t' -> Status t' = "queued"%string) /\
  (forall j p rest fuel,
     crashed st = false -> agents st !! j = Some A99 ->
     taskChannel st = p :: rest ->
     exists st1 st2 t t',
       step st (Agent j fuel) = Some st1 /\ step st1 (Agent j fuel) = Some st2
       /\ tasks st !! p = Some t /\ Status t = "queued"%string
       /\ tasks st2 !! p = Some t' /\ Status t' = "calculated"%string) /\
  (forall j p fuel,
     crashed st = false -> agents st !! j = Some (A106 p) ->
     exists st' t t',
       step st (Agent j fuel) = Some st'
       /\ tasks st !! p = Some t /\ Status t = "calculated"%string
       /\ tasks st' !! p = Some t' /\ Status t' = "completed"%string
       /\ Result t' = Result t).
Proof.
  intros Hrun. pose proof (lifecycle_run _ _ Hrun) as Inv.
  split; [|split; [|split; [|split]]].
  - intros evs' st' p t Hrun' Ht.
    destruct (progress_run evs' st st' Inv Hrun' p t Ht) as (t' & Ht' & _ & _ & Hs).
    exists t'. split; [exact Ht'|]. split; [exact Hs|].
    apply statusRank_rtc. exact Hs.
  - apply (status_valid_run _ _ Hrun).
  - intros ev st' p t' Hstep. apply created_queued; [|exact Inv].
    eapply step_transition. exact Hstep.
  - intros j p rest fuel Hc Ha Hch.
    assert (Hq : statusAt (tasks st) (p, "queued"%string)).
    { destruct Inv as (_ & FA & _). eapply Forall_forall; [exact FA|].
      unfold claims. rewrite Hch. rewrite !elem_of_app. right. left.
      simpl. apply elem_of_cons. left. reflexivity. }
    destruct Hq as (t & Ht & Hs). simpl in Ht, Hs.
    assert (Hj : (j < length (agents st))%nat) by (eapply lookup_lt_Some; exact Ha).
    exists (withAgent j (A100 p) (receive p rest st)).
    exists (withAgent j (A103 p)
              (withTasks (alter (setStatus "calculated") p)
                 (withAgent j (A100 p) (receive p rest st)))).
    exists t, (setStatus "calculated" t).
    split; [unfold step, agentStep; rewrite Hc, Ha, Hch; reflexivity|].
    split.
    { unfold step, agentStep. simpl. rewrite Hc.
      rewrite list_lookup_insert_eq by exact Hj. reflexivity. }
    split; [exact Ht|]. split; [exact Hs|]. simpl.
    rewrite list_lookup_alter_eq, Ht. split; reflexivity.
  - intros j p fuel Hc Ha.
    assert (Hq : statusAt (tasks st) (p, "calculated"%string)).
    { destruct Inv as (_ & FA & _). eapply Forall_forall; [exact FA|].
      eapply claim_of_agent; [exact Ha | reflexivity]. }
    destruct Hq as (t & Ht & Hs). simpl in Ht, Hs.
    exists (withAgent j A99 (withTasks (alter (setStatus "completed") p) st)).
    exists t, (setStatus "completed" t).
    split; [unfold step, agentStep; rewrite Hc, Ha; reflexivity|].
    split; [exact Ht|]. split; [exact Hs|]. simpl.
    rewrite list_lookup_alter_eq, Ht. repeat split; reflexivity.
Qed.

Lemma status_progression_witness :
  exists st,
    run initial (serveOne "2+3") = Some st /\
    forall evs' st' p t,
      run st evs' = Some st' -> tasks st !! p = Some t ->
      exists t', tasks st' !! p = Some t'
                 /\ rtc statusNext (Status t) (Status t')
                 /\ (statusRank (Status t) <= statusRank (Status t'))%nat.
Proof.
  eexists. split; [vm_compute; reflexivity|].
  apply (status_progression (serveOne "2+3")). vm_compute. reflexivity.
Defined.

(** C8.  [taskChannel] is a first-in-first-out queue of capacity 100: it
    never holds more than 100 pointers, a send is impossible while it holds
    100 and otherwise appends at the tail, a receive is impossible while it
    is empty and otherwise takes the head, and what the agents have
    received is, in order, the beginning of what the handlers have sent. *)
Theorem taskChannel_bounded_fifo (evs : list event) (st : state) :
  run initial evs = Some st ->
  taskChannelCap = 100%nat /\
  (length (taskChannel st) <= 100)%nat /\
  sent st = received st ++ taskChannel st /\
  (forall i p, handlers st !! i = Some (H55 p) ->
     length (taskChannel st) = 100%nat -> step st (Handler i) = None) /\
  (forall i p, crashed st = false -> handlers st !! i = Some (H55 p) ->
     (length (taskChannel st) < 100)%nat ->
     exists st', step st (Handler i) = Some st'
                 /\ taskChannel st' = taskChannel st ++ [p]
                 /\ sent st' = sent st ++ [p] /\ received st' = received st) /\
  (forall j fuel, agents st !! j = Some A99 -> taskChannel st = [] ->
     step st (Agent j fuel) = None) /\
  (forall j fuel p rest, crashed st = false -> agents st !! j = Some A99 ->
     taskChannel st = p :: rest ->
     exists st', step st (Agent j fuel) = Some st'
                 /\ agents st' !! j = Some (A100 p)
                 /\ taskChannel st' = rest
                 /\ received st' = received st ++ [p] /\ sent st' = sent st).
Proof.
  intros Hrun. destruct (channel_run _ _ Hrun) as [Hs Hl].
  split; [reflexivity|]. split; [exact Hl|]. split; [exact Hs|].
  split; [|split; [|split]].
  - intros i p Hf Hfull. unfold step, addTaskHandler.
    destruct (crashed st); [reflexivity|]. rewrite Hf, Hfull. reflexivity.
  - intros i p Hc Hf Hlt. eexists. unfold step, addTaskHandler.
    rewrite Hc, Hf.
    replace (length (taskChannel st) <? taskChannelCap)%nat with true
      by (symmetry; apply Nat.ltb_lt; exact Hlt).
    split; [reflexivity|]. simpl. auto.
  - intros j fuel Ha He. unfold step, agentStep.
    destruct (crashed st); [reflexivity|]. rewrite Ha, He. reflexivity.
  - intros j fuel p rest Hc Ha Hch. eexists. unfold step, agentStep.
    rewrite Hc, Ha, Hch. split; [reflexivity|]. simpl.
    split; [|auto]. apply list_lookup_insert_eq. eapply lookup_lt_Some. exact Ha.
Qed.

Lemma taskChannel_bounded_fifo_witness :
  exists st,
    run initial successiveSubmissions = Some st /\
    sent st = received st ++ taskChannel st /\
    taskChannel st = [0%nat; 1%nat].
Proof.
  eexists. split; [vm_compute; reflexivity|]. split; [|reflexivity].
  apply (taskChannel_bounded_fifo successiveSubmissions).
  vm_compute. reflexivity.
Defined.

(* ================================================================== *)
(** * Identifiers of tasks *)

Lemma registry_ids evs st :
  runExclusive initial evs = Some st ->
  Z.of_nat (length (tasks st)) <= maxInt ->
  forall p t, tasks st !! p = Some t -> ID t = Z.of_nat p + 1.
Proof.
  intros Hrun Hlen p t Ht.
  destruct (registry_run _ _ Hrun) as (_ & R1 & _).
  rewrite (R1 p t Ht). apply wrapInt_small.
  apply lookup_lt_Some in Ht. unfold minInt, maxInt in *. lia.
Qed.

(** The claim of C5 fails when two handlers overlap: both requests of
    [racingSubmissions] are answered with the identifier 1, and both tasks
    carry it. *)
Lemma racing_submissions_share_identifier :
  exists st,
    run initial racingSubmissions = Some st /\
    handlers st = [HReturned 0 1; HReturned 1 1] /\
    map ID (tasks st) = [1; 1].
Proof. eexists. split; [vm_compute; reflexivity|]. split; reflexivity. Qed.

(** C5, amended.  As long as lines 48 to 52 of different handlers do not
    overlap (and the list is no longer than a Go slice can be), the
    identifiers in the list are strictly increasing, hence pairwise
    different, and different requests are answered with different
    identifiers, each the identifier of the task the request created. *)
Theorem identifiers_unique_when_exclusive (evs : list event) (st : state) :
  runExclusive initial evs = Some st ->
  Z.of_nat (length (tasks st)) <= maxInt ->
  (forall p q t u, tasks st !! p = Some t -> tasks st !! q = Some u ->
     (p < q)%nat -> ID t < ID u) /\
  (forall p q t u, tasks st !! p = Some t -> tasks st !! q = Some u ->
     p <> q -> ID t <> ID u) /\
  (forall i j p q a b, i <> j ->
     handlers st !! i = Some (HReturned p a) ->
     handlers st !! j = Some (HReturned q b) -> a <> b) /\
  (forall i p a, handlers st !! i = Some (HReturned p a) ->
     exists t, tasks st !! p = Some t /\ ID t = a).
Proof.
  intros Hrun Hlen. pose proof (registry_ids _ _ Hrun Hlen) as Hid.
  destruct (registry_run _ _ Hrun) as (_ & R1 & _ & _ & R4).
  destruct (positions_run _ _ (runExclusive_run _ _ _ Hrun)) as (ND & FA).
  assert (Hret : forall i p a, handlers st !! i = Some (HReturned p a) ->
            exists t, tasks st !! p = Some t /\ ID t = a).
  { intros i p a Hf.
    assert (Hp : (p < length (tasks st))%nat).
    { eapply Forall_forall in FA; [exact FA|].
      apply list_elem_of_omap. exists (HReturned p a).
      split; [eapply list_elem_of_lookup_2; exact Hf | reflexivity]. }
    destruct (lookup_lt_is_Some_2 _ _ Hp) as [t Ht]. exists t.
    split; [exact Ht|]. rewrite (R4 _ _ _ Hf). apply R1. exact Ht. }
  split; [|split; [|split]].
  - intros p q t u Ht Hu Hpq. rewrite (Hid _ _ Ht), (Hid _ _ Hu). lia.
  - intros p q t u Ht Hu Hpq. rewrite (Hid _ _ Ht), (Hid _ _ Hu). lia.
  - intros i j p q a b Hij Hi Hj Hab. apply Hij.
    destruct (Hret _ _ _ Hi) as (t & Ht & Ea).
    destruct (Hret _ _ _ Hj) as (u & Hu & Eb).
    assert (p = q).
    { rewrite (Hid _ _ Ht) in Ea. rewrite (Hid _ _ Hu) in Eb. lia. }
    subst q.
    eapply (omap_NoDup_index handlerPos); try eassumption; reflexivity.
  - exact Hret.
Qed.

Lemma identifiers_unique_when_exclusive_witness :
  exists st,
    runExclusive initial successiveSubmissions = Some st /\
    handlers st = [HReturned 0 1; HReturned 1 2] /\
    forall p q t u, tasks st !! p = Some t -> tasks st !! q = Some u ->
      (p < q)%nat -> ID t < ID u.
Proof.
  eexists. split; [vm_compute; reflexivity|]. split; [reflexivity|].
  apply (identifiers_unique_when_exclusive successiveSubmissions).
  - vm_compute. reflexivity.
  - vm_compute. discriminate.
Defined.

(** The claim of C9 fails when one handler overtakes another between its
    lines 49 and 52: after [overtakingSubmissions] the task at position 0
    has the identifier 2, and looking up the identifier 1 returns it. *)
Lemma overtaking_submission_breaks_positions :
  exists st t,
    run initial overtakingSubmissions = Some st /\
    map ID (tasks st) = [2; 1] /\
    lookupTask (tasks st) 1 = Some t /\ ID t = 2.
Proof.
  eexists. eexists. split; [vm_compute; reflexivity|].
  split; [reflexivity|]. split; reflexivity.
Qed.

(** C9, amended.  As long as lines 48 to 52 of different handlers do not
    overlap (and the list is no longer than a Go slice can be), the task
    with identifier [i] is at position [i - 1] of the list: the lookup of
    lines 68 to 74 returns a task whose ID is the identifier asked for
    when [1 <= i <= len(tasks)], and nothing otherwise. *)
Theorem identifier_is_position_when_exclusive (evs : list event) (st : state) :
  runExclusive initial evs = Some st ->
  Z.of_nat (length (tasks st)) <= maxInt ->
  (forall p t, tasks st !! p = Some t -> ID t = Z.of_nat p + 1) /\
  (forall i, 1 <= i <= Z.of_nat (length (tasks st)) ->
     exists t, lookupTask (tasks st) i = Some t /\ ID t = i
               /\ tasks st !! Z.to_nat (i - 1) = Some t) /\
  (forall i, ~ (1 <= i <= Z.of_nat (length (tasks st))) ->
     lookupTask (tasks st) i = None) /\
  (forall i t, lookupTask (tasks st) i = Some t ->
     1 <= i <= Z.of_nat (length (tasks st)) /\ ID t = i).
Proof.
  intros Hrun Hlen. pose proof (registry_ids _ _ Hrun Hlen) as Hid.
  assert (In : forall i, 1 <= i <= Z.of_nat (length (tasks st)) ->
            (i <? 1) || (i >? Z.of_nat (length (tasks st))) = false).
  { intros i Hi. apply orb_false_iff. split; [apply Z.ltb_ge; lia|].
    rewrite Z.gtb_ltb. apply Z.ltb_ge. lia. }
  assert (Out : forall i, ~ (1 <= i <= Z.of_nat (length (tasks st))) ->
            (i <? 1) || (i >? Z.of_nat (length (tasks st))) = true).
  { intros i Hi. apply orb_true_iff.
    destruct (Z_lt_dec i 1); [left; apply Z.ltb_lt; assumption|].
    right. rewrite Z.gtb_ltb. apply Z.ltb_lt. lia. }
  split; [exact Hid|]. split; [|split].
  - intros i Hi.
    destruct (lookup_lt_is_Some_2 (tasks st) (Z.to_nat (i - 1))) as [t Ht];
      [lia|].
    exists t. unfold lookupTask. rewrite (In i Hi).
    split; [exact Ht|]. split; [|exact Ht]. rewrite (Hid _ _ Ht). lia.
  - intros i Hi. unfold lookupTask. rewrite (Out i Hi). reflexivity.
  - intros i t. unfold lookupTask.
    destruct (Z_le_dec 1 i) as [H1|H1];
      [destruct (Z_le_dec i (Z.of_nat (length (tasks st)))) as [H2|H2]|].
    + rewrite (In i (conj H1 H2)). intros Ht. split; [lia|].
      rewrite (Hid _ _ Ht). lia.
    + rewrite (Out i) by lia. discriminate.
    + rewrite (Out i) by lia. discriminate.
Qed.

Lemma identifier_is_position_when_exclusive_witness :
  exists st,
    runExclusive initial successiveSubmissions = Some st /\
    map ID (tasks st) = [1; 2] /\
    forall p t, tasks st !! p = Some t -> ID t = Z.of_nat p + 1.
Proof.
  eexists. split; [vm_compute; reflexivity|]. split; [reflexivity|].
  apply (identifier_is_position_when_exclusive successiveSubmissions).
  - vm_compute. reflexivity.
  - vm_compute. discriminate.
Defined.

(* ================================================================== *)
(** * Malformed expressions *)

(** A trailing or leading operator: the final loop never ends, because
    [performOperation] returns without popping the operator. *)
Lemma trailing_operator_never_returns fuel :
  evaluateExpression fuel (runes "2+") = None.
Proof.
  unfold evaluateExpression.
  assert (E : scan fuel (removeSpaces (runes "2+")) emptyStacks
              = Some (mkStacks [2%float] [r_plus])).
  { destruct fuel; reflexivity. }
  rewrite E.
  rewrite (whileTop_stuck anyTop _ r_plus []); try reflexivity. simpl. lia.
Qed.

Lemma leading_operator_never_returns fuel :
  evaluateExpression fuel (runes "+2") = None.
Proof.
  unfold evaluateExpression.
  assert (E : scan fuel (removeSpaces (runes "+2")) emptyStacks
              = Some (mkStacks [2%float] [r_plus])).
  { destruct fuel; reflexivity. }
  rewrite E.
  rewrite (whileTop_stuck anyTop _ r_plus []); try reflexivity. simpl. lia.
Qed.

(** The empty expression: [operandStack[0]] panics. *)
Lemma empty_expression_panics fuel :
  evaluateExpression fuel [] = Some PanicIndexOutOfRange.
Proof. destruct fuel; reflexivity. Qed.

(** The result of a call does not depend on the fuel it is given. *)
Lemma scanChar_mono fuel fuel' c st r :
  scanChar fuel c st = Some r -> (fuel <= fuel')%nat ->
  scanChar fuel' c st = Some r.
Proof.
  unfold scanChar. intros H Hle.
  destruct (c =? r_lparen); [exact H|].
  destruct (c =? r_rparen).
  { destruct (whileTop notLParen fuel st) as [s|] eqn:E; [|discriminate].
    rewrite (whileTop_mono _ _ _ _ _ E Hle). exact H. }
  destruct ((c =? r_plus) || (c =? r_minus)).
  { destruct (whileTop isArith fuel st) as [s|] eqn:E; [|discriminate].
    rewrite (whileTop_mono _ _ _ _ _ E Hle). exact H. }
  destruct ((c =? r_star) || (c =? r_slash)).
  { destruct (whileTop isMulDiv fuel st) as [s|] eqn:E; [|discriminate].
    rewrite (whileTop_mono _ _ _ _ _ E Hle). exact H. }
  exact H.
Qed.

Lemma scan_mono fuel fuel' cs : forall st r,
  scan fuel cs st = Some r -> (fuel <= fuel')%nat -> scan fuel' cs st = Some r.
Proof.
  induction cs as [|c cs IH]; intros st r H Hle; simpl in *; [exact H|].
  destruct (scanChar fuel c st) as [s|] eqn:E; [|discriminate].
  rewrite (scanChar_mono _ _ _ _ _ E Hle). apply IH; assumption.
Qed.

Lemma evaluateExpression_mono fuel fuel' s r :
  evaluateExpression fuel s = Some r -> (fuel <= fuel')%nat ->
  evaluateExpression fuel' s = Some r.
Proof.
  unfold evaluateExpression. intros H Hle.
  destruct (scan fuel (removeSpaces s) emptyStacks) as [st|] eqn:E;
    [|discriminate].
  rewrite (scan_mono _ _ _ _ _ E Hle).
  destruct (whileTop anyTop fuel st) as [st'|] eqn:E'; [|discriminate].
  rewrite (whileTop_mono _ _ _ _ _ E' Hle). exact H.
Qed.

(** The claim of C1 fails on "23": two operands remain once the scan is
    over and no operator is left, yet the call returns the number 2, and
    the agent records it with the status "completed". *)
Lemma leftover_operands_return_a_number :
  scan 0 (removeSpaces (runes "23")) emptyStacks
    = Some (mkStacks [3%float; 2%float] []) /\
  evaluateExpression 0 (runes "23") = Some (Returned 2%float) /\
  exists st,
    run initial (serveOne "23") = Some st /\
    tasks st = [mkTask 1 (runes "23") "completed" 2%float 0].
Proof.
  split; [reflexivity|]. split; [reflexivity|].
  eexists. split; [vm_compute; reflexivity|]. reflexivity.
Qed.

(** C1, amended.  The evaluator has no error result and a task no failed
    status.  [performOperation] returns without any change when fewer than
    two operands or no operator is available.  When the expression consists
    of operand characters only, so that every operand but one is left over,
    [evaluateExpression] returns the first of them; a single numeral returns
    itself.  Whenever the evaluation returns a number, the agent writes it
    to the Result of the task and sets the status "completed". *)
Theorem malformed_expressions_without_error (fuel : nat) :
  (forall st, (length (operandStack st) < 2)%nat \/ operatorStack st = [] ->
     performOperation st = st) /\
  (forall c0 cs, forallb isOperandChar (c0 :: cs) = true ->
     evaluateExpression fuel (c0 :: cs) = Some (Returned (fst (ParseFloat c0)))) /\
  (forall d, evaluateExpression fuel [digitRune d]
             = Some (Returned (digitValue d))) /\
  (forall st j p task v,
     crashed st = false -> agents st !! j = Some (A103 p) ->
     tasks st !! p = Some task ->
     evaluateExpression fuel (Expression task) = Some (Returned v) ->
     exists st1 st2,
       step st (Agent j fuel) = Some st1 /\
       step st1 (Agent j fuel) = Some st2 /\
       tasks st2 !! p = Some (setStatus "completed" (setResult v task)) /\
       agents st2 !! j = Some A99).
Proof.
  split; [|split; [|split]].
  - intros st [H|H]; unfold performOperation.
    + destruct (operandStack st) as [|b [|a rest]]; simpl in H;
        try reflexivity; lia.
    + rewrite H. destruct (operandStack st) as [|b [|a rest]]; reflexivity.
  - intros c0 cs H. apply evaluate_operands. exact H.
  - intros d. rewrite evaluate_operands by (destruct d; reflexivity).
    rewrite ParseFloat_digit. reflexivity.
  - intros st j p task v Hc Ha Ht He.
    assert (Hj : (j < length (agents st))%nat) by (eapply lookup_lt_Some; exact Ha).
    exists (withAgent j (A106 p) (withTasks (alter (setResult v) p) st)).
    exists (withAgent j A99
              (withTasks (alter (setStatus "completed") p)
                 (withAgent j (A106 p) (withTasks (alter (setResult v) p) st)))).
    split; [unfold step, agentStep; rewrite Hc, Ha, Ht, He; reflexivity|].
    split.
    { unfold step, agentStep. simpl. rewrite Hc.
      rewrite list_lookup_insert_eq by exact Hj. reflexivity. }
    simpl. split.
    + rewrite !list_lookup_alter_eq, Ht. reflexivity.
    + rewrite list_lookup_insert_eq; [reflexivity|].
      rewrite length_insert. exact Hj.
Qed.

Lemma malformed_expressions_without_error_witness :
  performOperation (mkStacks [2%float] [r_plus]) = mkStacks [2%float] [r_plus] /\
  evaluateExpression 0 (runes "23") = Some (Returned 2%float).
Proof.
  split.
  - apply (proj1 (malformed_expressions_without_error 0)). left. simpl. lia.
  - apply (proj1 (proj2 (malformed_expressions_without_error 0)) 50 [51]).
    reflexivity.
Defined.

(* ================================================================== *)
(** * Further properties of the evaluator *)

(** *** When the final loop ends *)

Lemma drain_all_stuck fuel : forall st,
  operatorStack st <> [] ->
  (length (operandStack st) <= length (operatorStack st))%nat ->
  whileTop anyTop fuel st = None.
Proof.
  induction fuel as [|fuel IH]; intros [nums ops] Hne Hle; simpl in *.
  - destruct ops; [congruence|reflexivity].
  - destruct ops as [|op ops]; [congruence|]. simpl.
    unfold performOperation; simpl.
    destruct nums as [|b [|a rest]]; try (apply IH; simpl; [congruence|lia]).
    simpl in Hle. apply IH; simpl; [|lia].
    destruct ops; [simpl in Hle; lia | congruence].
Qed.

Lemma drain_all_returns : forall ops nums,
  (length ops < length nums)%nat ->
  exists st', whileTop anyTop (length ops) (mkStacks nums ops) = Some st'
              /\ operatorStack st' = []
              /\ (length (operandStack st') + length ops = length nums)%nat.
Proof.
  induction ops as [|op ops IH]; intros nums Hlt; simpl in *.
  - exists (mkStacks nums []). auto.
  - destruct nums as [|b [|a rest]]; simpl in Hlt; try lia.
    unfold performOperation; simpl.
    destruct (IH (applyOp op a b :: rest)) as (st' & E & Ho & Hl);
      [simpl; lia|].
    exists st'. split; [exact E|]. split; [exact Ho|]. simpl in *. lia.
Qed.

Lemma drain_all_empty fuel : forall st st',
  whileTop anyTop fuel st = Some st' -> operatorStack st' = [].
Proof.
  induction fuel as [|fuel IH]; intros st st'; simpl.
  - destruct (operatorStack st) eqn:E; [|discriminate].
    intros [= <-]. exact E.
  - destruct (operatorStack st) eqn:E; [intros [= <-]; exact E|].
    apply IH.
Qed.

(** X1.  The final loop of [evaluateExpression] ends exactly when no
    operator is left or fewer operators than operands are; it then leaves
    no operator, and one operand for each operand it found beyond the
    operators. *)
Theorem final_loop_ends_iff (st : stacks) :
  ((exists fuel st', whileTop anyTop fuel st = Some st') <->
   (operatorStack st = [] \/
    (length (operatorStack st) < length (operandStack st))%nat)) /\
  (forall fuel st', whileTop anyTop fuel st = Some st' ->
     operatorStack st' = [] /\
     (operatorStack st <> [] ->
      (length (operandStack st') + length (operatorStack st)
       = length (operandStack st))%nat)).
Proof.
  split; [split|].
  - intros (fuel & st' & H).
    destruct (operatorStack st) as [|op ops] eqn:E; [left; reflexivity|].
    right. destruct (Nat.lt_ge_cases (length (op :: ops)) (length (operandStack st)))
      as [Hlt|Hge]; [exact Hlt|].
    rewrite drain_all_stuck in H; [discriminate| |]; rewrite E; [congruence|exact Hge].
  - intros [E|Hlt].
    + exists O, st. destruct st as [nums ops]. simpl in *. rewrite E. reflexivity.
    + destruct st as [nums ops]. simpl in Hlt.
      destruct (drain_all_returns ops nums Hlt) as (st' & H & _).
      exists (length ops), st'. exact H.
  - intros fuel st' H. split; [eapply drain_all_empty; exact H|].
    intros Hne. destruct st as [nums ops]. simpl in *.
    destruct (Nat.lt_ge_cases (length ops) (length nums)) as [Hlt|Hge].
    + destruct (drain_all_returns ops nums Hlt) as (st'' & H' & _ & Hl).
      destruct (Nat.le_ge_cases fuel (length ops)) as [Hf|Hf].
      * rewrite (whileTop_mono _ _ _ _ _ H Hf) in H'. injection H' as <-. exact Hl.
      * rewrite (whileTop_mono _ _ _ _ _ H' Hf) in H. injection H as <-. exact Hl.
    + rewrite drain_all_stuck in H; [discriminate|exact Hne|exact Hge].
Qed.

Lemma final_loop_ends_iff_witness :
  exists fuel st',
    whileTop anyTop fuel (mkStacks [3%float; 2%float] [r_plus]) = Some st'.
Proof.
  apply (proj1 (final_loop_ends_iff (mkStacks [3%float; 2%float] [r_plus]))).
  right. simpl. lia.
Defined.

(** *** Expressions that are not of the grammar *)

Lemma pending_balance v nums ops st :
  pendingExpr v nums ops st ->
  (length (operandStack st) + length ops
   = length (operatorStack st) + S (length nums))%nat
  /\ (length ops <= length (operatorStack st))%nat.
Proof.
  intros [[-> | (a & b & o & -> & _)]
         | (a & v1 & o & [-> | (a' & b' & o' & -> & _)] & _)]; simpl; lia.
Qed.

Lemma evaluate_None_from fuel s :
  evaluateExpression (S (S fuel)) s = None -> evaluateExpression fuel s = None.
Proof.
  intros H. destruct (evaluateExpression fuel s) as [r|] eqn:E; [|reflexivity].
  rewrite (evaluateExpression_mono fuel (S (S fuel)) s r E) in H by lia.
  discriminate H.
Qed.

Lemma removeSpaces_render_app e rest :
  removeSpaces (render e ++ rest) = render e ++ removeSpaces rest.
Proof. rewrite removeSpaces_app, (proj1 removeSpaces_render). reflexivity. Qed.

(** X2.  An operator after a complete expression: the evaluation never
    returns, whatever the bound on its loops. *)
Theorem trailing_operator_diverges (fuel : nat) (e : expr) (c : rune) :
  isArith c = true ->
  evaluateExpression fuel (render e ++ [c]) = None.
Proof.
  intros Hc. apply evaluate_None_from. unfold evaluateExpression, emptyStacks.
  assert (Hsp : removeSpaces [c] = [c]).
  { unfold removeSpaces. simpl.
    destruct (c =? r_space) eqn:E; [|reflexivity].
    apply Z.eqb_eq in E. subst c. discriminate Hc. }
  rewrite removeSpaces_render_app, Hsp.
  destruct (proj1 (scan_render fuel) e [c] [] [] I) as (st' & E & P).
  rewrite E. cbn [scan].
  assert (Hop : (exists o, c = addRune o) \/ (exists o, c = mulRune o)).
  { unfold isArith in Hc.
    destruct (c =? r_plus) eqn:E1; [apply Z.eqb_eq in E1; left; exists Plus; exact E1|].
    destruct (c =? r_minus) eqn:E2; [apply Z.eqb_eq in E2; left; exists Minus; exact E2|].
    destruct (c =? r_star) eqn:E3; [apply Z.eqb_eq in E3; right; exists Times; exact E3|].
    destruct (c =? r_slash) eqn:E4; [apply Z.eqb_eq in E4; right; exists Divide; exact E4|].
    discriminate Hc. }
  destruct Hop as [[o ->] | [o ->]].
  - rewrite (scanChar_add fuel o _ _ _ _ P I).
    rewrite drain_all_stuck; [reflexivity|discriminate|simpl; lia].
  - destruct P as [P | (a & v1 & o' & P & _)].
    + rewrite (scanChar_mul fuel o _ _ _ _ P I).
      rewrite drain_all_stuck; [reflexivity|discriminate|simpl; lia].
    + rewrite (scanChar_mul fuel o _ _ _ _ P) by (destruct o'; reflexivity).
      rewrite drain_all_stuck; [reflexivity|discriminate|simpl; lia].
Qed.

Lemma trailing_operator_diverges_witness :
  evaluateExpression 5 (runes "2*3-") = None.
Proof.
  apply (trailing_operator_diverges 5
           (ETerm (TMul (TFactor (FDigit D2)) Times (FDigit D3))) r_minus).
  reflexivity.
Defined.

(** X3.  An opening parenthesis that is never closed: the evaluation never
    returns. *)
Theorem unclosed_parenthesis_diverges (fuel : nat) (e : expr) :
  evaluateExpression fuel (r_lparen :: render e) = None.
Proof.
  apply evaluate_None_from. unfold evaluateExpression, emptyStacks.
  change (r_lparen :: render e) with ([r_lparen] ++ render e).
  rewrite removeSpaces_app, (proj1 removeSpaces_render).
  change (removeSpaces [r_lparen]) with [r_lparen].
  change (scan (S (S fuel)) ([r_lparen] ++ render e) (mkStacks [] []))
    with (scan (S (S fuel)) (render e) (mkStacks [] [r_lparen])).
  destruct (proj1 (scan_render fuel) e [] [] [r_lparen] eq_refl) as (st' & E & P).
  rewrite app_nil_r in E. rewrite E. cbn [scan].
  destruct (pending_balance _ _ _ _ P) as [B B']. simpl in B, B'.
  rewrite drain_all_stuck; [reflexivity| |lia].
  intros Eo. rewrite Eo in B'. simpl in B'. lia.
Qed.

(** X4.  A closing parenthesis that nothing opened closes all that precedes
    it: the expression evaluates as if it began with an opening
    parenthesis; so "2+3)*4" gives 20. *)
Theorem stray_closing_parenthesis (fuel : nat) (e : expr) (rest : list rune) :
  evaluateExpression (S (S fuel)) (render e ++ r_rparen :: rest)
  = evaluateExpression (S (S fuel)) (r_lparen :: render e ++ r_rparen :: rest)
  /\ evaluateExpression (S (S fuel)) (render e ++ [r_rparen])
     = Some (Returned (value e))
  /\ evaluateExpression (S (S fuel)) (runes "2+3)*4") = Some (Returned 20%float).
Proof.
  assert (G : forall rest,
    evaluateExpression (S (S fuel)) (render e ++ r_rparen :: rest)
    = evaluateExpression (S (S fuel)) (r_lparen :: render e ++ r_rparen :: rest)).
  { intros r. unfold evaluateExpression, emptyStacks.
    change (r_lparen :: render e ++ r_rparen :: r)
      with ([r_lparen] ++ render e ++ [r_rparen] ++ r).
    change (render e ++ r_rparen :: r) with (render e ++ [r_rparen] ++ r).
    rewrite !removeSpaces_app, (proj1 removeSpaces_render).
    change (removeSpaces [r_lparen]) with [r_lparen].
    change (removeSpaces [r_rparen]) with [r_rparen].
    destruct (proj1 (scan_render fuel) e ([r_rparen] ++ removeSpaces r) [] [] I)
      as (st1 & E1 & P1).
    rewrite E1.
    destruct (proj1 (scan_render fuel) e ([r_rparen] ++ removeSpaces r)
                [] [r_lparen] eq_refl) as (st2 & E2 & P2).
    change (scan (S (S fuel)) ([r_lparen] ++ render e ++ [r_rparen] ++ removeSpaces r)
              (mkStacks [] []))
      with (scan (S (S fuel)) (render e ++ [r_rparen] ++ removeSpaces r)
              (mkStacks [] [r_lparen])).
    rewrite E2. cbn [scan app].
    rewrite (scanChar_rparen fuel _ _ _ _ P2).
    unfold scanChar. simpl (r_rparen =? r_lparen). simpl (r_rparen =? r_rparen).
    cbn iota.
    rewrite (drain_expr notLParen fuel _ _ _ _ P1) by (try reflexivity; exact I).
    reflexivity. }
  split; [apply G|]. split.
  - rewrite G. apply (evaluate_render fuel (ETerm (TFactor (FParen e)))).
  - clear G. unfold evaluateExpression, emptyStacks.
    destruct fuel; reflexivity.
Qed.

(** X5.  A numeral of several digits is not read as one number: a digit,
    or any other operand character, written in front of a complete
    expression becomes the result, and the value of the expression is
    computed and dropped; so "12+3" gives 1. *)
Theorem leading_operand_is_the_result (fuel : nat) (c0 : rune) (e : expr) :
  isOperandChar c0 = true ->
  evaluateExpression (S (S fuel)) (c0 :: render e)
  = Some (Returned (fst (ParseFloat c0))).
Proof.
  intros Hc. unfold evaluateExpression, emptyStacks.
  change (c0 :: render e) with ([c0] ++ render e).
  rewrite removeSpaces_app, (proj1 removeSpaces_render).
  rewrite (removeSpaces_operands [c0]) by (simpl; rewrite Hc; reflexivity).
  cbn [scan app]. rewrite (scanChar_operand _ _ _ (isOperandChar_special _ Hc)).
  unfold pushOperand. cbn [operandStack operatorStack].
  destruct (proj1 (scan_render fuel) e [] [fst (ParseFloat c0)] [] I)
    as (st' & E & P).
  rewrite app_nil_r in E. rewrite E. cbn [scan].
  rewrite (drain_expr anyTop fuel _ _ _ _ P) by (try reflexivity; exact I).
  reflexivity.
Qed.

Lemma leading_operand_is_the_result_witness :
  evaluateExpression 2 (runes "12+3") = Some (Returned 1%float).
Proof.
  apply (leading_operand_is_the_result 0 49
           (EAdd (ETerm (TFactor (FDigit D2))) Plus (TFactor (FDigit D3)))).
  reflexivity.
Defined.

(** X6.  Division by zero is no error: the quotient of a term by the digit
    0 is the IEEE quotient, infinity for the digits 1 to 9 and not a number
    for the digit 0, and the call returns it. *)
Theorem division_by_zero_returns (fuel : nat) :
  (forall t, evaluateExpression (S (S fuel)) (renderTerm t ++ [r_slash; digitRune D0])
             = Some (Returned (PrimFloat.div (valueTerm t) 0%float))) /\
  (forall d, evaluateExpression (S (S fuel)) [digitRune d; r_slash; digitRune D0]
             = Some (Returned (match d with D0 => nan | _ => infinity end))).
Proof.
  assert (G : forall t,
    evaluateExpression (S (S fuel)) (renderTerm t ++ [r_slash; digitRune D0])
    = Some (Returned (PrimFloat.div (valueTerm t) 0%float))).
  { intros t. apply (evaluate_render fuel (ETerm (TMul t Divide (FDigit D0)))). }
  split; [exact G|]. intros d.
  change [digitRune d; r_slash; digitRune D0]
    with (renderTerm (TFactor (FDigit d)) ++ [r_slash; digitRune D0]).
  rewrite (G (TFactor (FDigit d))). destruct d; reflexivity.
Qed.

(* ================================================================== *)
(** * The time an evaluation sleeps *)

Lemma performOperationTimed_fst ts :
  fst (performOperationTimed ts) = performOperation (fst ts).
Proof.
  unfold performOperationTimed, performOperation.
  destruct (operandStack (fst ts)) as [|b [|a rest]];
    destruct (operatorStack (fst ts)); reflexivity.
Qed.

Lemma whileTopTimed_fst cond fuel : forall ts,
  option_map fst (whileTopTimed cond fuel ts) = whileTop cond fuel (fst ts).
Proof.
  induction fuel as [|fuel IH]; intros ts; simpl.
  - destruct (operatorStack (fst ts)) as [|top ops]; [reflexivity|].
    destruct (cond top); reflexivity.
  - destruct (operatorStack (fst ts)) as [|top ops]; [reflexivity|].
    destruct (cond top); [|reflexivity].
    rewrite IH, performOperationTimed_fst. reflexivity.
Qed.

Lemma option_map_untimed (f : stacks -> stacks) (o : option (stacks * Z)) :
  option_map fst (option_map (untimed f) o) = option_map f (option_map fst o).
Proof. destruct o; reflexivity. Qed.

Lemma scanCharTimed_fst fuel c ts :
  option_map fst (scanCharTimed fuel c ts) = scanChar fuel c (fst ts).
Proof.
  unfold scanCharTimed, scanChar.
  destruct (c =? r_lparen); [reflexivity|].
  destruct (c =? r_rparen);
    [rewrite option_map_untimed, whileTopTimed_fst; reflexivity|].
  destruct ((c =? r_plus) || (c =? r_minus));
    [rewrite option_map_untimed, whileTopTimed_fst; reflexivity|].
  destruct ((c =? r_star) || (c =? r_slash));
    [rewrite option_map_untimed, whileTopTimed_fst; reflexivity|].
  reflexivity.
Qed.

Lemma scanTimed_fst fuel cs : forall ts,
  option_map fst (scanTimed fuel cs ts) = scan fuel cs (fst ts).
Proof.
  induction cs as [|c cs IH]; intros ts; simpl; [reflexivity|].
  rewrite <- scanCharTimed_fst.
  destruct (scanCharTimed fuel c ts) as [ts'|]; simpl; [apply IH|reflexivity].
Qed.

(** Without its clock the timed evaluator is the evaluator. *)
Lemma evaluateExpressionTimed_fst fuel s :
  option_map fst (evaluateExpressionTimed fuel s) = evaluateExpression fuel s.
Proof.
  unfold evaluateExpressionTimed, evaluateExpression.
  change (scan fuel (removeSpaces s) emptyStacks)
    with (scan fuel (removeSpaces s) (fst (emptyStacks, 0))).
  rewrite <- scanTimed_fst.
  destruct (scanTimed fuel (removeSpaces s) (emptyStacks, 0)) as [ts|];
    simpl; [|reflexivity].
  rewrite <- whileTopTimed_fst.
  destruct (whileTopTimed anyTop fuel ts) as [ts'|]; reflexivity.
Qed.

Lemma performOperationTimed_pending ts :
  sleepPending (performOperationTimed ts) = sleepPending ts.
Proof.
  unfold sleepPending, performOperationTimed.
  destruct (operandStack (fst ts)) as [|b [|a rest]];
    destruct (operatorStack (fst ts)) as [|op ops] eqn:E;
    simpl; rewrite ?E; simpl; lia.
Qed.

Lemma whileTopTimed_pending cond fuel : forall ts ts',
  whileTopTimed cond fuel ts = Some ts' -> sleepPending ts' = sleepPending ts.
Proof.
  induction fuel as [|fuel IH]; intros ts ts'; simpl.
  - destruct (operatorStack (fst ts)) as [|top ops]; [intros [= <-]; reflexivity|].
    destruct (cond top); [discriminate|intros [= <-]; reflexivity].
  - destruct (operatorStack (fst ts)) as [|top ops]; [intros [= <-]; reflexivity|].
    destruct (cond top); [|intros [= <-]; reflexivity].
    intros H. rewrite (IH _ _ H). apply performOperationTimed_pending.
Qed.

Lemma dropLParen_pending ts :
  sleepPending (untimed dropLParen ts) = sleepPending ts.
Proof.
  unfold sleepPending, untimed, dropLParen. simpl.
  destruct (operatorStack (fst ts)) as [|top ops] eqn:E; simpl;
    [rewrite E; reflexivity|].
  destruct (top =? r_lparen) eqn:Et; simpl; [|rewrite E; reflexivity].
  apply Z.eqb_eq in Et. subst top. reflexivity.
Qed.

Lemma pushOperator_pending c ts :
  sleepPending (untimed (pushOperator c) ts) = sleepPending ts + sleepOf c.
Proof. unfold sleepPending, untimed, pushOperator. simpl. lia. Qed.

Lemma scanCharTimed_pending fuel c ts ts' :
  scanCharTimed fuel c ts = Some ts' ->
  sleepPending ts' = sleepPending ts + sleepOf c.
Proof.
  unfold scanCharTimed.
  destruct (c =? r_lparen) eqn:E1.
  { intros [= <-]. apply pushOperator_pending. }
  destruct (c =? r_rparen) eqn:E2.
  { destruct (whileTopTimed notLParen fuel ts) as [ts1|] eqn:W; [|discriminate].
    intros [= <-]. rewrite dropLParen_pending, (whileTopTimed_pending _ _ _ _ W).
    apply Z.eqb_eq in E2. subst c. change (sleepOf r_rparen) with 0. lia. }
  destruct ((c =? r_plus) || (c =? r_minus)) eqn:E3.
  { destruct (whileTopTimed isArith fuel ts) as [ts1|] eqn:W; [|discriminate].
    intros [= <-]. rewrite pushOperator_pending, (whileTopTimed_pending _ _ _ _ W).
    reflexivity. }
  destruct ((c =? r_star) || (c =? r_slash)) eqn:E4.
  { destruct (whileTopTimed isMulDiv fuel ts) as [ts1|] eqn:W; [|discriminate].
    intros [= <-]. rewrite pushOperator_pending, (whileTopTimed_pending _ _ _ _ W).
    reflexivity. }
  intros [= <-]. unfold sleepPending, untimed, pushOperand, sleepOf. simpl.
  apply orb_false_iff in E3 as [-> ->]. apply orb_false_iff in E4 as [-> ->].
  lia.
Qed.

Lemma scanTimed_pending fuel cs : forall ts ts',
  scanTimed fuel cs ts = Some ts' ->
  sleepPending ts' = sleepPending ts + sleepTotal cs.
Proof.
  induction cs as [|c cs IH]; intros ts ts'; simpl.
  - intros [= <-]. lia.
  - destruct (scanCharTimed fuel c ts) as [ts1|] eqn:E; [|discriminate].
    intros H. rewrite (IH _ _ H), (scanCharTimed_pending _ _ _ _ E). lia.
Qed.

Lemma sleepTotal_removeSpaces s : sleepTotal (removeSpaces s) = sleepTotal s.
Proof.
  induction s as [|c s IH]; simpl; [reflexivity|].
  destruct (c =? r_space) eqn:E; simpl; rewrite IH; [|reflexivity].
  apply Z.eqb_eq in E. subst c. reflexivity.
Qed.

(** X7.  An evaluation that returns has slept 20 s for every [+] of the
    expression, 30 s for every [-], 25 s for every [*] and 50 s for every
    [/], whatever the expression; an expression of the grammar returns its
    value after that time. *)
Theorem evaluation_sleeps_per_operator :
  (forall fuel s r t,
     evaluateExpressionTimed fuel s = Some (r, t) -> t = sleepTotal s) /\
  (forall fuel e,
     evaluateExpressionTimed (S (S fuel)) (render e)
     = Some (Returned (value e), sleepTotal (render e))) /\
  sleepOf r_plus = 20 * Second /\ sleepOf r_minus = 30 * Second /\
  sleepOf r_star = 25 * Second /\ sleepOf r_slash = 50 * Second /\
  (forall c, isArith c = false -> sleepOf c = 0).
Proof.
  assert (G : forall fuel s r t,
     evaluateExpressionTimed fuel s = Some (r, t) -> t = sleepTotal s).
  { intros fuel s r t. unfold evaluateExpressionTimed.
    destruct (scanTimed fuel (removeSpaces s) (emptyStacks, 0)) as [ts|] eqn:E;
      [|discriminate].
    destruct (whileTopTimed anyTop fuel ts) as [ts'|] eqn:W; [|discriminate].
    intros [= _ <-].
    pose proof (scanTimed_pending _ _ _ _ E) as P1.
    pose proof (whileTopTimed_pending _ _ _ _ W) as P2.
    assert (Ho : operatorStack (fst ts') = []).
    { apply (drain_all_empty fuel (fst ts)).
      rewrite <- whileTopTimed_fst, W. reflexivity. }
    unfold sleepPending in P2 at 1. rewrite Ho in P2. simpl in P2.
    rewrite sleepTotal_removeSpaces in P1.
    unfold sleepPending in P1 at 2. simpl in P1. lia. }
  split; [exact G|]. split.
  - intros fuel e.
    pose proof (evaluateExpressionTimed_fst (S (S fuel)) (render e)) as F.
    rewrite evaluate_render in F.
    destruct (evaluateExpressionTimed (S (S fuel)) (render e)) as [[r t]|] eqn:E;
      [|discriminate F].
    simpl in F. injection F as ->. rewrite (G _ _ _ _ E). reflexivity.
  - repeat (split; [reflexivity|]).
    intros c. unfold isArith, sleepOf. intros H.
    destruct (c =? r_plus); [discriminate H|].
    destruct (c =? r_minus); [discriminate H|].
    destruct (c =? r_star); [discriminate H|].
    destruct (c =? r_slash); [discriminate H|]. reflexivity.
Qed.

Lemma evaluation_sleeps_per_operator_witness :
  evaluateExpressionTimed 2%nat (runes "2+3*4") = Some (Returned 14%float, 45 * Second)
  /\ 45 * Second = sleepTotal (runes "2+3*4").
Proof.
  split; [reflexivity|].
  apply (proj1 evaluation_sleeps_per_operator 2%nat (runes "2+3*4") (Returned 14%float)).
  reflexivity.
Defined.

(* ================================================================== *)
(** * Further properties of the handlers *)

(** X8.  The index of line 74 is always within the list: the handler never
    panics, and it answers with one of the codes 200, 202, 400 and 404. *)
Theorem getTaskResultHandler_in_range (URLPath : string) (tasks : list Task) :
  body (getTaskResultHandler URLPath tasks) <> NoResponse /\
  (statusCode (getTaskResultHandler URLPath tasks) = 200 \/
   statusCode (getTaskResultHandler URLPath tasks) = 202 \/
   statusCode (getTaskResultHandler URLPath tasks) = 400 \/
   statusCode (getTaskResultHandler URLPath tasks) = 404).
Proof.
  unfold getTaskResultHandler.
  destruct (Atoi (firstSegment (TrimPrefix URLPath "/tasks/"))) as [taskID|];
    [|split; [discriminate|auto]].
  destruct (taskID <? 1) eqn:E1; [split; [discriminate|auto]|].
  destruct (taskID >? Z.of_nat (length tasks)) eqn:E2;
    [split; [discriminate|auto]|].
  simpl. apply Z.ltb_ge in E1. rewrite Z.gtb_ltb in E2. apply Z.ltb_ge in E2.
  destruct (lookup_lt_is_Some_2 tasks (Z.to_nat (taskID - 1))) as [t Ht]; [lia|].
  rewrite Ht. destruct (negb (String.eqb (Status t) "completed"));
    [split; [discriminate|auto]|].
  destruct (jsonEncodable (Result t)); split; try discriminate; auto.
Qed.

Lemma substring_full (s : string) : String.substring 0 (String.length s) s = s.
Proof. induction s as [|c s IH]; simpl; [reflexivity|]. rewrite IH. reflexivity. Qed.

Lemma prefix_nil (s : string) : String.prefix "" s = true.
Proof. destruct s; reflexivity. Qed.

Lemma firstSegment_append (id rest : string) :
  hasSlash id = false ->
  firstSegment (String.append id (String "/" rest)) = id.
Proof.
  induction id as [|c id IH]; simpl; [reflexivity|].
  intros H. apply orb_false_iff in H as [Hc Hid].
  rewrite Hc, (IH Hid). reflexivity.
Qed.

(** X9.  The handler reads the identifier as it is written in the path
    /tasks/{id}/result (an id has no slash): it is the string given to
    [strconv.Atoi], so the answer is 400 exactly when [Atoi] rejects the
    id. *)
Theorem resultPath_identifier (id : string) (tasks : list Task) :
  hasSlash id = false ->
  firstSegment (TrimPrefix (resultPath id) "/tasks/") = id /\
  (Atoi id = None <->
   getTaskResultHandler (resultPath id) tasks
   = mkResponse 400 (PlainText "Invalid task ID")).
Proof.
  intros H.
  assert (E : firstSegment (TrimPrefix (resultPath id) "/tasks/") = id).
  { unfold TrimPrefix, resultPath. simpl.
    rewrite Nat.sub_0_r, substring_full, prefix_nil.
    apply firstSegment_append. exact H. }
  split; [exact E|]. unfold getTaskResultHandler. rewrite E. split.
  - intros ->. reflexivity.
  - destruct (Atoi id) as [taskID|]; [|reflexivity].
    destruct ((taskID <? 1) || (taskID >? Z.of_nat (length tasks)));
      [discriminate|].
    destruct (tasks !! Z.to_nat (taskID - 1)) as [t|]; [|discriminate].
    destruct (negb (String.eqb (Status t) "completed")); [discriminate|].
    destruct (jsonEncodable (Result t)); discriminate.
Qed.

Lemma resultPath_identifier_witness :
  firstSegment (TrimPrefix "/tasks/17/result" "/tasks/") = "17"%string.
Proof. apply (proj1 (resultPath_identifier "17" [] eq_refl)). Defined.

(* ================================================================== *)
(** * Further properties of the goroutines *)

(** *** What stays as submitted *)

Lemma fields_transition st st' :
  transition st st' ->
  forall p t, tasks st !! p = Some t ->
  exists t', tasks st' !! p = Some t' /\ ID t' = ID t
             /\ Expression t' = Expression t /\ AgentID t' = AgentID t.
Proof.
  intros T p t Ht.
  destruct T; simpl; try (exists t; auto; fail).
  - exists t. split; [apply lookup_app_l_Some; exact Ht | auto].
  - destruct (lookup_alter_of (setStatus "calculated") _ p0 _ _ Ht)
      as (t' & Ht' & [E | (Ep & E)]); exists t'; subst t'; auto.
  - destruct (lookup_alter_of (setResult v) _ p0 _ _ Ht)
      as (t' & Ht' & [E | (Ep & E)]); exists t'; subst t'; auto.
  - destruct (lookup_alter_of (setStatus "completed") _ p0 _ _ Ht)
      as (t' & Ht' & [E | (Ep & E)]); exists t'; subst t'; auto.
Qed.

Lemma length_transition st st' :
  transition st st' -> (length (tasks st) <= length (tasks st'))%nat.
Proof.
  intros T. destruct T; simpl; rewrite ?length_alter, ?length_app; simpl; lia.
Qed.

Lemma fields_run (evs : list event) : forall st st',
  run st evs = Some st' ->
  (length (tasks st) <= length (tasks st'))%nat /\
  forall p t, tasks st !! p = Some t ->
    exists t', tasks st' !! p = Some t' /\ ID t' = ID t
               /\ Expression t' = Expression t /\ AgentID t' = AgentID t.
Proof.
  induction evs as [|ev evs IH]; intros st st'; simpl.
  - intros [= <-]. split; [lia|]. intros p t Ht. exists t. auto.
  - destruct (step st ev) as [st1|] eqn:E; [|discriminate].
    intros Hrun. apply step_transition in E.
    destruct (IH st1 st' Hrun) as [Hl Hf]. split.
    + pose proof (length_transition _ _ E). lia.
    + intros p t Ht.
      destruct (fields_transition _ _ E p t Ht) as (t1 & Ht1 & E1 & E2 & E3).
      destruct (Hf p t1 Ht1) as (t' & Ht' & E1' & E2' & E3').
      exists t'. split; [exact Ht'|]. repeat split; congruence.
Qed.

(** X10.  As long as lines 48 to 52 of different handlers do not overlap,
    so that no append of line 52 is lost: once a task is in the list it
    stays at its position, and its ID, its Expression and its AgentID never
    change (no statement of an agent writes the AgentID); the list never
    shrinks. *)
Theorem task_fields_are_stable (evs0 evs : list event) (st st' : state) :
  runExclusive initial evs0 = Some st ->
  runExclusive st evs = Some st' ->
  (length (tasks st) <= length (tasks st'))%nat /\
  forall p t, tasks st !! p = Some t ->
    exists t', tasks st' !! p = Some t' /\ ID t' = ID t
               /\ Expression t' = Expression t /\ AgentID t' = AgentID t.
Proof.
  intros _ Hrun. apply (fields_run evs). apply runExclusive_run. exact Hrun.
Qed.

Lemma task_fields_are_stable_witness :
  exists st st',
    runExclusive initial (Submit (submission "2+3") :: handleFully 0) = Some st /\
    runExclusive st (agentFully 0 2) = Some st' /\
    (length (tasks st) <= length (tasks st'))%nat /\
    forall p t, tasks st !! p = Some t ->
      exists t', tasks st' !! p = Some t' /\ ID t' = ID t
                 /\ Expression t' = Expression t /\ AgentID t' = AgentID t.
Proof.
  eexists. eexists.
  split; [vm_compute; reflexivity|]. split; [vm_compute; reflexivity|].
  apply (task_fields_are_stable
           (Submit (submission "2+3") :: handleFully 0) (agentFully 0 2));
    vm_compute; reflexivity.
Defined.

(** *** One submission from the request to the response *)

Lemma lookup_snoc {A} (l : list A) (x : A) : (l ++ [x]) !! length l = Some x.
Proof. apply list_lookup_middle. reflexivity. Qed.

Lemma insert_snoc {A} (l : list A) (x y : A) :
  <[length l := y]> (l ++ [x]) = l ++ [y].
Proof.
  replace (length l) with (length l + 0)%nat by lia.
  rewrite insert_app_r. reflexivity.
Qed.

(** X11.  A submission that runs without interruption appends one task,
    increments [nextTaskID], sends the task on the channel and answers
    with its identifier.  The task has the identifier [nextTaskID] had and
    the status "queued", whatever the body gave for them, and keeps the
    expression, the result and the agent_id of the body. *)
Theorem submission_runs_through (st : state) (body : Task) :
  crashed st = false ->
  (length (taskChannel st) < taskChannelCap)%nat ->
  run st (Submit body :: handleFully (length (handlers st)))
  = Some (mkState
            (tasks st ++ [mkTask (nextTaskID st) (Expression body) "queued"
                            (Result body) (AgentID body)])
            (wrapInt (nextTaskID st + 1))
            (taskChannel st ++ [length (tasks st)])
            (handlers st ++ [HReturned (length (tasks st)) (nextTaskID st)])
            (agents st) false
            (sent st ++ [length (tasks st)]) (received st)).
Proof.
  intros Hc Hlen. destruct st as [ts n ch hs ags cr se re].
  cbn [crashed taskChannel] in Hc, Hlen. subst cr.
  cbn [tasks nextTaskID taskChannel handlers agents sent received].
  unfold handleFully. cbn [repeat].
  assert (S0 : forall evs,
    run (mkState ts n ch hs ags false se re) (Submit body :: evs)
    = run (mkState ts n ch (hs ++ [H48 body]) ags false se re) evs)
    by reflexivity.
  assert (S : forall st0 st1 i evs,
    step st0 (Handler i) = Some st1 ->
    run st0 (Handler i :: evs) = run st1 evs).
  { intros st0 st1 i evs E. simpl. rewrite E. reflexivity. }
  rewrite S0.
  rewrite (S _ (mkState ts n ch (hs ++ [H49 (setID n body)]) ags false se re)).
  2:{ unfold step, addTaskHandler; simpl. rewrite lookup_snoc.
      unfold withHandler; simpl. rewrite insert_snoc. reflexivity. }
  rewrite (S _ (mkState ts (wrapInt (n + 1)) ch
                  (hs ++ [H50 (setID n body)]) ags false se re)).
  2:{ unfold step, addTaskHandler; simpl. rewrite lookup_snoc.
      unfold withHandler, withNextTaskID; simpl. rewrite insert_snoc.
      reflexivity. }
  rewrite (S _ (mkState ts (wrapInt (n + 1)) ch
                  (hs ++ [H52 (setStatus "queued" (setID n body))])
                  ags false se re)).
  2:{ unfold step, addTaskHandler; simpl. rewrite lookup_snoc.
      unfold withHandler; simpl. rewrite insert_snoc. reflexivity. }
  rewrite (S _ (mkState (ts ++ [setStatus "queued" (setID n body)])
                  (wrapInt (n + 1)) ch
                  (hs ++ [H55 (length ts)]) ags false se re)).
  2:{ unfold step, addTaskHandler; simpl. rewrite lookup_snoc.
      unfold withHandler, withTasks; simpl. rewrite insert_snoc.
      reflexivity. }
  rewrite (S _ (mkState (ts ++ [setStatus "queued" (setID n body)])
                  (wrapInt (n + 1)) (ch ++ [length ts])
                  (hs ++ [H57 (length ts)]) ags false
                  (se ++ [length ts]) re)).
  2:{ unfold step, addTaskHandler; simpl. rewrite lookup_snoc.
      replace (length ch <? taskChannelCap)%nat with true
        by (symmetry; apply Nat.ltb_lt; exact Hlen).
      unfold withHandler, send; simpl. rewrite insert_snoc. reflexivity. }
  rewrite (S _ (mkState (ts ++ [setStatus "queued" (setID n body)])
                  (wrapInt (n + 1)) (ch ++ [length ts])
                  (hs ++ [HReturned (length ts) n]) ags false
                  (se ++ [length ts]) re)).
  2:{ unfold step, addTaskHandler; simpl. rewrite !lookup_snoc.
      unfold withHandler; simpl. rewrite insert_snoc. reflexivity. }
  reflexivity.
Qed.

Lemma submission_runs_through_witness :
  run initial (Submit (mkTask 99 (runes "7") "completed" 5%float 4)
               :: handleFully 0)
  = Some (mkState [mkTask 1 (runes "7") "queued" 5%float 4] 2 [0%nat]
            [HReturned 0 1] (startAgents 3) false [0%nat] []).
Proof.
  apply (submission_runs_through initial
           (mkTask 99 (runes "7") "completed" 5%float 4) eq_refl).
  vm_compute. lia.
Defined.

(** *** The result of a completed task *)

Lemma agent_claims_fst (ags : list agentFrame) :
  (omap agentClaim ags).*1 = omap (fun a => fst <$> agentClaim a) ags.
Proof.
  induction ags as [|a ags IH]; [reflexivity|]. cbn.
  destruct (agentClaim a) as [[p s]|]; cbn; [f_equal|]; exact IH.
Qed.

(** Two agents never hold the same Task. *)
Lemma agents_hold_different_tasks st j j' a a' p s s' :
  lifecycleInv st ->
  agents st !! j = Some a -> agents st !! j' = Some a' ->
  agentClaim a = Some (p, s) -> agentClaim a' = Some (p, s') -> j = j'.
Proof.
  intros (ND & _ & _) Ha Ha' Hc Hc'. unfold claims in ND.
  rewrite !fmap_app in ND.
  apply NoDup_app in ND as (_ & _ & ND). apply NoDup_app in ND as (_ & _ & ND).
  rewrite agent_claims_fst in ND.
  eapply (omap_NoDup_index (fun a => fst <$> agentClaim a)); try eassumption.
  - rewrite Hc. reflexivity.
  - rewrite Hc'. reflexivity.
Qed.

Lemma agent_task_exists st j a p s :
  lifecycleInv st -> agents st !! j = Some a -> agentClaim a = Some (p, s) ->
  exists t, tasks st !! p = Some t /\ Status t = s.
Proof.
  intros (_ & FA & _) Ha Hc.
  eapply Forall_forall in FA; [|eapply claim_of_agent; eassumption].
  exact FA.
Qed.

Lemma result_step st st' :
  transition st st' -> lifecycleInv st -> resultInv st -> resultInv st'.
Proof.
  intros T Inv (RA & RC). unfold resultInv.
  destruct T; simpl; try (split; assumption).
  - (* 52 *)
    split.
    + intros j p t Ha Ht. apply lookup_app_Some in Ht as [Ht | (Hp & _)].
      * eapply RA; eassumption.
      * destruct (agent_task_exists st j (A106 p) p "calculated" Inv Ha eq_refl)
          as (t0 & Ht0 & _).
        apply lookup_lt_Some in Ht0. lia.
    + intros p t Ht Hs. apply lookup_app_Some in Ht as [Ht | (_ & Ht)].
      * eapply RC; eassumption.
      * apply list_lookup_singleton_Some in Ht as [_ <-].
        destruct Inv as (_ & _ & HQ). rewrite (HQ _ _ H) in Hs. discriminate Hs.
  - (* 99 *)
    split; [|exact RC]. intros j' q t Ha Ht.
    apply list_lookup_insert_Some in Ha as [(_ & Ha & _) | (_ & Ha)];
      [discriminate Ha | eapply RA; eassumption].
  - (* 100 *)
    split.
    + intros j' q t' Ha Ht'.
      apply list_lookup_insert_Some in Ha as [(_ & Ha & _) | (_ & Ha)];
        [discriminate Ha|].
      apply lookup_alter_Some in Ht' as (t & Ht & [-> | (_ & ->)]);
        apply (RA j' q t Ha Ht).
    + intros q t' Ht' Hs.
      apply lookup_alter_Some in Ht' as (t & Ht & [-> | (_ & ->)]);
        [eapply RC; eassumption | discriminate Hs].
  - (* 103 *)
    split.
    + intros j' q t' Ha Ht'.
      apply list_lookup_insert_Some in Ha as [(<- & [= <-] & _) | (Hne & Ha)].
      * rewrite list_lookup_alter_eq, H0 in Ht'. injection Ht' as <-.
        exists fuel. exact H1.
      * rewrite list_lookup_alter_ne in Ht'; [eapply RA; eassumption|].
        intros <-. apply Hne.
        eapply (agents_hold_different_tasks st j j'); try eassumption;
          reflexivity.
    + intros q t' Ht' Hs.
      apply lookup_alter_Some in Ht' as (t & Ht & [-> | (-> & ->)]);
        [eapply RC; eassumption|].
      destruct (agent_task_exists st j (A103 p) p "calculated" Inv H eq_refl)
        as (t0 & Ht0 & Hs0).
      simpl in Hs. assert (t0 = t) by congruence. subst t0.
      rewrite Hs0 in Hs. discriminate Hs.
  - (* 106 *)
    split.
    + intros j' q t' Ha Ht'.
      apply list_lookup_insert_Some in Ha as [(_ & Ha & _) | (_ & Ha)];
        [discriminate Ha|].
      apply lookup_alter_Some in Ht' as (t & Ht & [-> | (_ & ->)]);
        apply (RA j' q t Ha Ht).
    + intros q t' Ht' Hs.
      apply lookup_alter_Some in Ht' as (t & Ht & [-> | (-> & ->)]);
        [eapply RC; eassumption|].
      apply (RA j p t H Ht).
Qed.

Lemma result_run evs st :
  run initial evs = Some st -> lifecycleInv st /\ resultInv st.
Proof.
  apply (run_invariant (fun s => lifecycleInv s /\ resultInv s)).
  - intros s s' T [I R]. split; [eapply lifecycle_step | eapply result_step];
      eassumption.
  - split; [exact lifecycle_initial|]. split.
    + intros j p t _ H. discriminate H.
    + intros p t H. discriminate H.
Qed.

(** X12.  The Result of a completed task is the number [evaluateExpression]
    returns for its Expression; for an expression of the grammar it is the
    value of the expression. *)
Theorem completed_result_is_value (evs : list event) (st : state)
    (p : nat) (t : Task) :
  run initial evs = Some st ->
  tasks st !! p = Some t -> Status t = "completed"%string ->
  (exists fuel,
     evaluateExpression fuel (Expression t) = Some (Returned (Result t))) /\
  (forall e, Expression t = render e -> Result t = value e).
Proof.
  intros Hrun Ht Hs. destruct (result_run _ _ Hrun) as [_ [_ RC]].
  destruct (RC p t Ht Hs) as [fuel Hf]. split; [exists fuel; exact Hf|].
  intros e He. rewrite He in Hf.
  pose proof (evaluate_render fuel e) as Hv.
  rewrite (evaluateExpression_mono fuel (S (S fuel)) _ _ Hf) in Hv by lia.
  apply Returned_inj. exact Hv.
Qed.

Lemma completed_result_is_value_witness :
  exists st t,
    run initial (serveOne "2+3") = Some st /\ tasks st !! 0%nat = Some t /\
    Result t = 5%float /\
    exists fuel,
      evaluateExpression fuel (Expression t) = Some (Returned (Result t)).
Proof.
  eexists. eexists. split; [vm_compute; reflexivity|].
  split; [reflexivity|]. split; [reflexivity|].
  eapply proj1. eapply (completed_result_is_value (serveOne "2+3") _ 0%nat);
    [vm_compute; reflexivity | reflexivity | reflexivity].
Defined.

(** X13.  When the task at the requested position is completed and was
    submitted with an expression of the grammar, the answer to
    GET /tasks/{id}/result is 200; it carries the value of that expression
    when the value is a finite number, and has an empty body when the value
    is infinite or not a number, as for "1/0". *)
Theorem completed_answer_is_value (evs : list event) (st : state)
    (URLPath : string) (taskID : Z) (t : Task) (e : expr) :
  run initial evs = Some st ->
  Atoi (firstSegment (TrimPrefix URLPath "/tasks/")) = Some taskID ->
  1 <= taskID -> tasks st !! Z.to_nat (taskID - 1) = Some t ->
  Status t = "completed"%string -> Expression t = render e ->
  getTaskResultHandler URLPath (tasks st)
  = if jsonEncodable (value e)
    then mkResponse 200 (JSONResult (value e))
    else mkResponse 200 EmptyBody.
Proof.
  intros Hrun Ha H1 Ht Hs He. destruct (result_run _ _ Hrun) as [_ [_ RC]].
  destruct (RC _ t Ht Hs) as [fuel Hf]. rewrite He in Hf.
  pose proof (evaluate_render fuel e) as Hv.
  rewrite (evaluateExpression_mono fuel (S (S fuel)) _ _ Hf) in Hv by lia.
  apply Returned_inj in Hv.
  unfold getTaskResultHandler. rewrite Ha.
  pose proof (lookup_lt_Some _ _ _ Ht) as Hlt.
  replace ((taskID <? 1) || (taskID >? Z.of_nat (length (tasks st)))) with false.
  2:{ symmetry. apply orb_false_iff. split; [apply Z.ltb_ge; lia|].
      rewrite Z.gtb_ltb. apply Z.ltb_ge. lia. }
  rewrite Ht. apply String.eqb_eq in Hs. rewrite Hs. simpl.
  rewrite Hv. reflexivity.
Qed.

Lemma completed_answer_is_value_witness :
  (exists st,
     run initial (serveOne "2+3") = Some st /\
     getTaskResultHandler "/tasks/1/result" (tasks st)
     = mkResponse 200 (JSONResult 5%float)) /\
  (exists st,
     run initial serveDivisionByZero = Some st /\
     getTaskResultHandler "/tasks/1/result" (tasks st)
     = mkResponse 200 EmptyBody).
Proof.
  split.
  - eexists. split; [vm_compute; reflexivity|].
    apply (completed_answer_is_value (serveOne "2+3") _ "/tasks/1/result" 1
             (mkTask 1 (runes "2+3") "completed" 5%float 0)
             (EAdd (ETerm (TFactor (FDigit D2))) Plus (TFactor (FDigit D3))));
      [vm_compute; reflexivity | reflexivity | lia
      | reflexivity | reflexivity | reflexivity].
  - eexists. split; [vm_compute; reflexivity|].
    apply (completed_answer_is_value serveDivisionByZero _ "/tasks/1/result" 1
             (mkTask 1 (runes "1/0") "completed" infinity 0)
             (ETerm (TMul (TFactor (FDigit D1)) Divide (FDigit D0))));
      [vm_compute; reflexivity | reflexivity | lia
      | reflexivity | reflexivity | reflexivity].
Defined.

(** *** Each task is dispatched once *)

Lemma omap_weaken_elem {A B} (g h : A -> option B) (l : list A) x :
  (forall a b, h a = Some b -> g a = Some b) ->
  x ∈ omap h l -> x ∈ omap g l.
Proof.
  intros Hgh Hx. apply list_elem_of_omap in Hx as (a & Ha & Hh).
  apply list_elem_of_omap. exists a. split; [exact Ha | apply Hgh; exact Hh].
Qed.

Lemma omap_weaken_NoDup {A B} (g h : A -> option B) (l : list A) :
  (forall a b, h a = Some b -> g a = Some b) ->
  NoDup (omap g l) -> NoDup (omap h l).
Proof.
  intros Hgh. induction l as [|a l IH]; simpl; [auto|].
  destruct (h a) as [b|] eqn:Hh.
  - rewrite (Hgh a b Hh). intros ND. apply NoDup_cons in ND as [Hn ND].
    apply NoDup_cons. split; [|apply IH; exact ND].
    intros Hin. apply Hn. eapply omap_weaken_elem; eassumption.
  - destruct (g a); [intros ND; apply NoDup_cons in ND as [_ ND]|]; auto.
Qed.

Lemma sentPos_handlerPos f p : sentPos f = Some p -> handlerPos f = Some p.
Proof. destruct f; simpl; congruence. Qed.

Lemma sent_step st st' :
  transition st st' ->
  sent st ≡ₚ omap sentPos (handlers st) ->
  sent st' ≡ₚ omap sentPos (handlers st').
Proof.
  intros T HS.
  destruct T; simpl;
    try (rewrite (omap_insert_same sentPos _ _ _ _ H) by reflexivity);
    try exact HS.
  - rewrite omap_app. simpl. rewrite app_nil_r. exact HS.
  - destruct (omap_insert_perm sentPos _ _ _ H) as (R & HR & HR').
    simpl in HR. specialize (HR' (H57 p)). simpl in HR'.
    rewrite HR', <- HR, <- HS. symmetry. apply Permutation_cons_append.
Qed.

Lemma sent_run evs st :
  run initial evs = Some st -> sent st ≡ₚ omap sentPos (handlers st).
Proof.
  apply (run_invariant (fun s => sent s ≡ₚ omap sentPos (handlers s)) sent_step).
  reflexivity.
Qed.

(** X14.  No task is dispatched twice: the pointers sent on the channel are
    pairwise different, so the agents receive each task at most once and
    never a task that is still in the channel.  As long as lines 48 to 52
    of different handlers do not overlap, so that no append of line 52 is
    lost, every pointer sent denotes a task of the list. *)
Theorem tasks_are_dispatched_once (evs : list event) (st : state) :
  run initial evs = Some st ->
  NoDup (sent st) /\
  NoDup (received st) /\
  NoDup (taskChannel st) /\
  (forall p, p ∈ received st -> p ∉ taskChannel st) /\
  (runExclusive initial evs = Some st ->
   forall p, p ∈ sent st -> (p < length (tasks st))%nat).
Proof.
  intros Hrun. pose proof (sent_run _ _ Hrun) as HS.
  destruct (positions_run _ _ Hrun) as [ND FA].
  destruct (channel_run _ _ Hrun) as [Hch _].
  assert (NDs : NoDup (sent st)).
  { rewrite HS. eapply omap_weaken_NoDup; [exact sentPos_handlerPos | exact ND]. }
  split; [exact NDs|]. rewrite Hch in NDs.
  apply NoDup_app in NDs as (N1 & N2 & N3).
  split; [exact N1|]. split; [exact N3|]. split; [exact N2|].
  intros _ p Hp. rewrite HS in Hp.
  eapply Forall_forall in FA; [exact FA|].
  eapply omap_weaken_elem; [exact sentPos_handlerPos | exact Hp].
Qed.

Lemma tasks_are_dispatched_once_witness :
  exists st,
    run initial successiveSubmissions = Some st /\
    NoDup (sent st) /\
    forall p, p ∈ sent st -> (p < length (tasks st))%nat.
Proof.
  eexists. split; [vm_compute; reflexivity|].
  pose proof (tasks_are_dispatched_once successiveSubmissions _
                ltac:(vm_compute; reflexivity)) as (N & _ & _ & _ & L).
  split; [exact N|]. apply L. vm_compute. reflexivity.
Defined.

(** *** At most three tasks are being calculated *)

Lemma calculating_step st st' :
  transition st st' -> lifecycleInv st ->
  calculatingInv st -> calculatingInv st'.
Proof.
  intros T Inv C. unfold calculatingInv in *.
  destruct T; simpl; try exact C.
  - (* 52 *)
    intros q t Ht Hs. apply lookup_app_Some in Ht as [Ht | (_ & Ht)].
    + eapply C; eassumption.
    + apply list_lookup_singleton_Some in Ht as [_ <-].
      destruct Inv as (_ & _ & HQ). rewrite (HQ _ _ H) in Hs. discriminate Hs.
  - (* 99 *)
    rewrite (omap_insert_same calculating _ _ _ _ H) by reflexivity. exact C.
  - (* 100 *)
    destruct (omap_insert_perm calculating _ _ _ H) as (R & HR & HR').
    simpl in HR. specialize (HR' (A103 p)). simpl in HR'.
    intros q t' Ht' Hs. rewrite HR', <- HR.
    destruct (decide (q = p)) as [->|Hne]; [apply elem_of_cons; left; reflexivity|].
    rewrite list_lookup_alter_ne in Ht' by congruence.
    apply elem_of_cons. right. eapply C; eassumption.
  - (* 103 *)
    rewrite (omap_insert_same calculating _ _ _ _ H) by reflexivity.
    intros q t' Ht' Hs.
    apply lookup_alter_Some in Ht' as (t & Ht & [-> | (_ & ->)]);
      eapply C; eassumption.
  - (* 106 *)
    destruct (omap_insert_perm calculating _ _ _ H) as (R & HR & HR').
    simpl in HR. specialize (HR' A99). simpl in HR'.
    intros q t' Ht' Hs. rewrite HR'.
    destruct (decide (q = p)) as [->|Hne].
    + rewrite list_lookup_alter_eq in Ht'.
      destruct (tasks st !! p) as [t|]; [|discriminate Ht'].
      injection Ht' as <-. discriminate Hs.
    + rewrite list_lookup_alter_ne in Ht' by congruence.
      pose proof (C q t' Ht' Hs) as Hin. rewrite HR in Hin.
      apply elem_of_cons in Hin as [Hin|Hin]; [congruence|exact Hin].
Qed.

Lemma agents_length_step st st' :
  transition st st' -> length (agents st') = length (agents st).
Proof. intros T. destruct T; simpl; rewrite ?length_insert; reflexivity. Qed.

Lemma length_omap_le {A B} (g : A -> option B) (l : list A) :
  (length (omap g l) <= length l)%nat.
Proof.
  induction l as [|a l IH]; [simpl; lia|]. cbn.
  destruct (g a); cbn; fold (omap g l); lia.
Qed.

(** X15.  There are always three agents, and at most three tasks are in
    the state "calculated" at any time: a further task waits in the
    channel until an agent has completed its own. *)
Theorem at_most_three_calculated (evs : list event) (st : state) :
  run initial evs = Some st ->
  length (agents st) = 3%nat /\
  forall l : list nat,
    NoDup l ->
    (forall p, p ∈ l ->
       exists t, tasks st !! p = Some t /\ Status t = "calculated"%string) ->
    (length l <= 3)%nat.
Proof.
  intros Hrun.
  assert (P : lifecycleInv st /\ calculatingInv st
              /\ length (agents st) = 3%nat).
  { revert Hrun.
    apply (run_invariant (fun s => lifecycleInv s /\ calculatingInv s
                                   /\ length (agents s) = 3%nat)).
    - intros s s' T (I & C & L).
      split; [eapply lifecycle_step; eassumption|].
      split; [eapply calculating_step; eassumption|].
      rewrite (agents_length_step _ _ T). exact L.
    - split; [exact lifecycle_initial|]. split; [|reflexivity].
      intros p t H. discriminate H. }
  destruct P as (_ & C & L). split; [exact L|].
  intros l ND Hl.
  assert (Hsub : l ⊆+ omap calculating (agents st)).
  { apply NoDup_submseteq; [exact ND|]. intros p Hp.
    destruct (Hl p Hp) as (t & Ht & Hs). eapply C; eassumption. }
  apply submseteq_length in Hsub.
  pose proof (length_omap_le calculating (agents st)). lia.
Qed.

Lemma at_most_three_calculated_witness :
  exists st,
    run initial successiveSubmissions = Some st /\ length (agents st) = 3%nat.
Proof.
  eexists. split; [vm_compute; reflexivity|].
  apply (at_most_three_calculated successiveSubmissions).
  vm_compute. reflexivity.
Defined.

(** *** The identifier in the response *)

(** X16.  As long as lines 48 to 52 of different handlers do not overlap,
    the identifier a submission was answered with leads back to the task
    that submission created: the request for its result is answered 202
    until that task is completed and 200 afterwards, with its Result when
    the Result is a finite number and with an empty body when it is not;
    never 400 or 404. *)
Theorem returned_identifier_resolves (evs : list event) (st : state)
    (i p : nat) (task_id : Z) (URLPath : string) :
  runExclusive initial evs = Some st ->
  Z.of_nat (length (tasks st)) <= maxInt ->
  handlers st !! i = Some (HReturned p task_id) ->
  Atoi (firstSegment (TrimPrefix URLPath "/tasks/")) = Some task_id ->
  exists t,
    tasks st !! p = Some t /\ ID t = task_id /\
    getTaskResultHandler URLPath (tasks st)
    = if String.eqb (Status t) "completed"
      then if jsonEncodable (Result t)
           then mkResponse 200 (JSONResult (Result t))
           else mkResponse 200 EmptyBody
      else mkResponse 202 (JSONStatus "Task is not completed yet").
Proof.
  intros Hrun Hlen Hf Ha.
  destruct (registry_run _ _ Hrun) as (_ & R1 & _ & _ & R4).
  destruct (positions_run _ _ (runExclusive_run _ _ _ Hrun)) as (_ & FA).
  assert (Hp : (p < length (tasks st))%nat).
  { eapply Forall_forall in FA; [exact FA|].
    apply list_elem_of_omap. exists (HReturned p task_id).
    split; [eapply list_elem_of_lookup_2; exact Hf | reflexivity]. }
  destruct (lookup_lt_is_Some_2 _ _ Hp) as [t Ht].
  assert (Hid : task_id = Z.of_nat p + 1).
  { rewrite (R4 _ _ _ Hf). apply wrapInt_small. unfold minInt, maxInt in *. lia. }
  exists t. split; [exact Ht|]. split.
  { rewrite (registry_ids _ _ Hrun Hlen _ _ Ht). symmetry. exact Hid. }
  unfold getTaskResultHandler. rewrite Ha.
  replace ((task_id <? 1) || (task_id >? Z.of_nat (length (tasks st))))
    with false.
  2:{ symmetry. apply orb_false_iff. split; [apply Z.ltb_ge; lia|].
      rewrite Z.gtb_ltb. apply Z.ltb_ge. lia. }
  replace (Z.to_nat (task_id - 1)) with p by lia.
  rewrite Ht. destruct (String.eqb (Status t) "completed"); reflexivity.
Qed.

Lemma returned_identifier_resolves_witness :
  exists t,
    [mkTask 1 (runes "2+3") "queued" 0%float 0;
     mkTask 2 (runes "4") "queued" 0%float 0] !! 1%nat = Some t /\
    ID t = 2 /\
    getTaskResultHandler "/tasks/2/result"
      [mkTask 1 (runes "2+3") "queued" 0%float 0;
       mkTask 2 (runes "4") "queued" 0%float 0]
    = if String.eqb (Status t) "completed"
      then if jsonEncodable (Result t)
           then mkResponse 200 (JSONResult (Result t))
           else mkResponse 200 EmptyBody
      else mkResponse 202 (JSONStatus "Task is not completed yet").
Proof.
  apply (returned_identifier_resolves successiveSubmissions
           (mkState
              [mkTask 1 (runes "2+3") "queued" 0%float 0;
               mkTask 2 (runes "4") "queued" 0%float 0]
              3 [0%nat; 1%nat] [HReturned 0 1; HReturned 1 2]
              (startAgents 3) false [0%nat; 1%nat] [])
           1%nat 1%nat 2 "/tasks/2/result");
    [vm_compute; reflexivity | vm_compute; discriminate
    | reflexivity | reflexivity].
Defined.

(** *** An evaluation that never returns *)

Lemma stuck_transition j p expression st st' :
  (forall fuel, evaluateExpression fuel expression = None) ->
  transition st st' ->
  agents st !! j = Some (A103 p) /\
  (exists t, tasks st !! p = Some t /\ Expression t = expression) ->
  agents st' !! j = Some (A103 p) /\
  (exists t, tasks st' !! p = Some t /\ Expression t = expression).
Proof.
  intros Hdiv T [Ha (t & Ht & He)]. split.
  - destruct T; simpl; try exact Ha.
    + destruct (decide (j0 = j)) as [->|Hne];
        [rewrite H in Ha; discriminate Ha|].
      rewrite list_lookup_insert_ne by exact Hne. exact Ha.
    + destruct (decide (j0 = j)) as [->|Hne];
        [rewrite H in Ha; discriminate Ha|].
      rewrite list_lookup_insert_ne by exact Hne. exact Ha.
    + destruct (decide (j0 = j)) as [->|Hne].
      * exfalso. rewrite H in Ha. injection Ha as ->.
        rewrite H0 in Ht. injection Ht as ->.
        rewrite He, Hdiv in H1. discriminate H1.
      * rewrite list_lookup_insert_ne by exact Hne. exact Ha.
    + destruct (decide (j0 = j)) as [->|Hne];
        [rewrite H in Ha; discriminate Ha|].
      rewrite list_lookup_insert_ne by exact Hne. exact Ha.
  - destruct (fields_transition _ _ T p t Ht) as (t' & Ht' & _ & He' & _).
    exists t'. split; [exact Ht'|congruence].
Qed.

(** X17.  An agent that evaluates an expression on which the evaluation
    never returns is lost for good: whatever happens afterwards, it stays
    at line 103 and can never take a step, and its task stays in the state
    "calculated". *)
Theorem diverging_task_keeps_its_agent (evs : list event) (st : state)
    (j p : nat) (task : Task) :
  run initial evs = Some st ->
  agents st !! j = Some (A103 p) -> tasks st !! p = Some task ->
  (forall fuel, evaluateExpression fuel (Expression task) = None) ->
  forall evs' st', run st evs' = Some st' ->
    agents st' !! j = Some (A103 p) /\
    (forall fuel, step st' (Agent j fuel) = None) /\
    exists t', tasks st' !! p = Some t' /\ Status t' = "calculated"%string
               /\ Expression t' = Expression task.
Proof.
  intros Hrun Ha Ht Hdiv evs' st' Hrun'.
  pose proof (lifecycle_run _ _ Hrun) as Inv.
  assert (P : lifecycleInv st' /\ agents st' !! j = Some (A103 p) /\
              (exists t, tasks st' !! p = Some t
                         /\ Expression t = Expression task)).
  { revert Hrun'.
    apply (run_invariant (fun s => lifecycleInv s /\ agents s !! j = Some (A103 p) /\
              (exists t, tasks s !! p = Some t
                         /\ Expression t = Expression task))).
    - intros s s' T (I & Q). split; [eapply lifecycle_step; eassumption|].
      eapply stuck_transition; eassumption.
    - split; [exact Inv|]. split; [exact Ha|]. exists task. auto. }
  destruct P as (Inv' & Ha' & (t' & Ht' & He')).
  split; [exact Ha'|]. split.
  - intros fuel. unfold step, agentStep.
    destruct (crashed st'); [reflexivity|].
    rewrite Ha', Ht', He', Hdiv. reflexivity.
  - exists t'. split; [exact Ht'|]. split; [|exact He'].
    destruct (agent_task_exists st' j (A103 p) p "calculated" Inv' Ha' eq_refl)
      as (t0 & Ht0 & Hs0).
    congruence.
Qed.

Lemma diverging_task_keeps_its_agent_witness :
  exists st,
    run initial (Submit (submission "2+") :: handleFully 0
                 ++ [Agent 0 2; Agent 0 2]) = Some st /\
    forall evs' st', run st evs' = Some st' ->
      agents st' !! 0%nat = Some (A103 0).
Proof.
  eexists. split; [vm_compute; reflexivity|].
  intros evs' st' Hrun'.
  refine (proj1 (diverging_task_keeps_its_agent
            (Submit (submission "2+") :: handleFully 0 ++ [Agent 0 2; Agent 0 2])
            _ 0%nat 0%nat (mkTask 1 (runes "2+") "calculated" 0%float 0)
            _ _ _ _ evs' st' Hrun')).
  - vm_compute. reflexivity.
  - reflexivity.
  - reflexivity.
  - intros fuel.
    apply (trailing_operator_never_returns fuel).
Defined.

(** *** A blank expression *)

Lemma removeSpaces_blank s : isBlank s = true -> removeSpaces s = [].
Proof.
  induction s as [|c s IH]; simpl; [reflexivity|].
  intros H. apply andb_true_iff in H as [Hc Hs]. rewrite Hc. simpl.
  apply IH. exact Hs.
Qed.

Lemma run_app evs1 : forall st evs2,
  run st (evs1 ++ evs2)
  = match run st evs1 with Some st1 => run st1 evs2 | None => None end.
Proof.
  induction evs1 as [|ev evs1 IH]; intros st evs2; simpl; [reflexivity|].
  destruct (step st ev); [apply IH|reflexivity].
Qed.

(** X18.  An expression that is empty or made of spaces makes
    [operandStack[0]] panic; the agent that evaluates it takes the whole
    process down: after the submission has been served up to line 103,
    nothing can take a step any more, and the task is left in the state
    "calculated". *)
Theorem blank_expression_stops_the_server (expression : list rune) (fuel : nat) :
  isBlank expression = true ->
  evaluateExpression fuel expression = Some PanicIndexOutOfRange /\
  exists st,
    run initial (Submit (mkTask 0 expression "" 0%float 0)
                 :: handleFully 0 ++ repeat (Agent 0 fuel) 3) = Some st /\
    crashed st = true /\
    (forall ev, step st ev = None) /\
    tasks st = [mkTask 1 expression "calculated" 0%float 0].
Proof.
  intros Hb.
  assert (Hp : evaluateExpression fuel expression = Some PanicIndexOutOfRange).
  { unfold evaluateExpression. rewrite (removeSpaces_blank _ Hb). simpl.
    destruct fuel; reflexivity. }
  split; [exact Hp|].
  change (Submit (mkTask 0 expression "" 0%float 0)
          :: handleFully 0 ++ repeat (Agent 0 fuel) 3)
    with ((Submit (mkTask 0 expression "" 0%float 0) :: handleFully 0
           ++ [Agent 0 fuel; Agent 0 fuel]) ++ [Agent 0 fuel]).
  rewrite run_app.
  assert (E : run initial (Submit (mkTask 0 expression "" 0%float 0)
                           :: handleFully 0 ++ [Agent 0 fuel; Agent 0 fuel])
              = Some (mkState [mkTask 1 expression "calculated" 0%float 0] 2 []
                        [HReturned 0 1] [A103 0; A99; A99] false
                        [0%nat] [0%nat])).
  { vm_compute. reflexivity. }
  rewrite E. simpl. unfold step, agentStep. simpl. rewrite Hp.
  eexists. split; [reflexivity|]. split; [reflexivity|].
  split; [intros ev; reflexivity | reflexivity].
Qed.

Lemma blank_expression_stops_the_server_witness :
  evaluateExpression 0 (runes "  ") = Some PanicIndexOutOfRange.
Proof.
  apply (proj1 (blank_expression_stops_the_server (runes "  ") 0 eq_refl)).
Defined.
